(** * MyEngine task system: a model of Engine/Core/TaskSystem.{h,cpp}

    The development follows the two source files:
    - [TaskHandle], [Task] and [TaskPriority] from TaskSystem.h;
    - the per-worker queues ([PushTask], [TryPopTask], [TryStealTask]);
    - the scheduler ([Initialize], [Shutdown], [Schedule], the worker loop)
      as a transition system whose steps are the atomic sections of the code;
    - [ParallelFor::Execute] with its 32-bit unsigned arithmetic. *)

From Stdlib Require Import ZArith Lia Sorted.
From stdpp Require Import base tactics option list numbers sets sorting.

(** ** Machine integers *)

Module UInt32.
Local Open Scope Z_scope.

Definition modulus : Z := 2 ^ 32.

(** Arithmetic on [uint32_t] is arithmetic modulo [2^32]. *)
Definition wrap (z : Z) : Z := z mod modulus.
Definition add (a b : Z) : Z := wrap (a + b).
Definition sub (a b : Z) : Z := wrap (a - b).
Definition mul (a b : Z) : Z := wrap (a * b).
(** Unsigned division.  Division by zero is undefined behaviour in the
    source; here it yields 0. *)
Definition div (a b : Z) : Z := a / b.

Definition in_range (z : Z) : Prop := 0 <= z < modulus.
End UInt32.

Module Int32.
Local Open Scope Z_scope.

(** [std::atomic<int>] wraps in two's complement. *)
Definition wrap (z : Z) : Z := (z + 2 ^ 31) mod 2 ^ 32 - 2 ^ 31.
End Int32.

(** ** TaskSystem.h: priorities, callables, handles, tasks *)

Inductive TaskPriority : Type :=
| Background
| Low
| Normal
| High.

(** The enumerators' values; [>=] on [TaskPriority] compares these. *)
Definition priority_value (p : TaskPriority) : Z :=
  match p with
  | Background => 0
  | Low => 1
  | Normal => 2
  | High => 3
  end.

(** A [TaskFunction] is an opaque [std::function<void()>].  The model knows
    two kinds of callables: a caller's own callable, identified by a number,
    and the lambda built by [ParallelFor::Execute], which captures its
    sub-range [start, end).  An empty [std::function] is [None]. *)
Inductive TaskFunction : Type :=
| UserFn (id : nat)
| BatchFn (start end_ : Z).

(** What running a callable does, as far as the model observes it. *)
Inductive Call : Type :=
| CallUser (id : nat)
| CallIndex (i : Z).

(** [for (uint32_t i = start; i < end; ++i) function(i);] *)
Definition index_range (start end_ : Z) : list Z :=
  (fun k : nat => (start + Z.of_nat k)%Z) <$> seq 0 (Z.to_nat (end_ - start)).

Definition invoke (f : TaskFunction) : list Call :=
  match f with
  | UserFn id => [CallUser id]
  | BatchFn start end_ => CallIndex <$> index_range start end_
  end.

(** The [std::atomic<int>] cells behind the [shared_ptr]s live in a store; a
    cell's address is its index.  Cells are never reused. *)
Abbreviation loc := nat (only parsing).
Abbreviation Heap := (list Z) (only parsing).

Definition counter_load (hp : Heap) (l : loc) : Z := default 0%Z (hp !! l).

Record TaskHandle : Type := mkTaskHandle {
  m_Counter : option loc    (* None: a null shared_ptr *)
}.

(** [TaskHandle() : m_Counter(std::make_shared<std::atomic<int>>(0))] *)
Definition TaskHandle_new (hp : Heap) : TaskHandle * Heap :=
  (mkTaskHandle (Some (length hp)), hp ++ [0%Z]).

(** The guard of the polling loop of [Wait]:
    [m_Counter && m_Counter->load() > 0]. *)
Definition Wait_guard (h : TaskHandle) (hp : Heap) : bool :=
  match m_Counter h with
  | Some l => (0 <? counter_load hp l)%Z
  | None => false
  end.

(** [Wait] polls the counter and yields between polls.  The store may change
    between two polls; [polls] gives the store seen at each poll.  The result
    is the number of yields before the loop exits, or [None] when the loop is
    still spinning after the last poll given. *)
Fixpoint Wait (h : TaskHandle) (polls : list Heap) : option nat :=
  match polls with
  | [] => None
  | hp :: later => if Wait_guard h hp then S <$> Wait h later else Some 0
  end.

Definition IsComplete (h : TaskHandle) (hp : Heap) : bool :=
  match m_Counter h with
  | Some l => (counter_load hp l =? 0)%Z
  | None => true
  end.

Definition Increment (h : TaskHandle) (hp : Heap) : Heap :=
  match m_Counter h with
  | Some l => alter (fun c => Int32.wrap (c + 1)) l hp
  | None => hp
  end.

Definition Decrement (h : TaskHandle) (hp : Heap) : Heap :=
  match m_Counter h with
  | Some l => alter (fun c => Int32.wrap (c - 1)) l hp
  | None => hp
  end.

Record Task : Type := mkTask {
  Function : option TaskFunction;
  Priority : TaskPriority;
  Handle : TaskHandle
}.

(** [Task(TaskFunction func, TaskPriority priority)]: the handle member is
    default-constructed, which allocates a fresh counter. *)
Definition Task_new (func : option TaskFunction) (priority : TaskPriority)
    (hp : Heap) : Task * Heap :=
  let '(h, hp') := TaskHandle_new hp in (mkTask func priority h, hp').

(** ** The worker queues *)

Abbreviation Queue := (list Task) (only parsing).

(** The loop of [PushTask]: walk past every element whose priority is at
    least the new task's, and insert there. *)
Fixpoint insert_by_priority (task : Task) (q : Queue) : Queue :=
  match q with
  | [] => [task]
  | it :: rest =>
      if (priority_value (Priority task) <=? priority_value (Priority it))%Z
      then it :: insert_by_priority task rest
      else task :: it :: rest
  end.

(** [PushTask] takes the queue's lock (blocking) and inserts.  An index past
    the end is undefined behaviour in the source; the model leaves the
    queues alone there. *)
Definition PushTask (task : Task) (threadIndex : nat)
    (queues : list Queue) : list Queue :=
  alter (insert_by_priority task) threadIndex queues.

(** [TryPopTask]: [owns_lock] tells whether the [try_to_lock] succeeded.  The
    result is the task moved into [outTask], if the call returns true. *)
Definition TryPopTask (owns_lock : bool) (threadIndex : nat)
    (queues : list Queue) : option Task * list Queue :=
  match queues !! threadIndex with
  | Some (front :: rest) =>
      if owns_lock then (Some front, <[threadIndex := rest]> queues)
      else (None, queues)
  | _ => (None, queues)
  end.

(** [TryStealTask]: [draw k] is the number the thread's generator yields at
    attempt [k] and [owns_lock k] the outcome of that attempt's
    [try_to_lock].  [dist(0, size - 1)] maps a draw into the index range. *)
Fixpoint steal_attempts (remaining attempts : nat)
    (draw : nat -> nat) (owns_lock : nat -> bool)
    (queues : list Queue) : option Task * list Queue :=
  match remaining with
  | O => (None, queues)
  | S remaining' =>
      let queueIndex := draw attempts mod length queues in
      match queues !! queueIndex with
      | Some q =>
          match list.last q with
          | Some back =>
              if owns_lock attempts
              then (Some back, <[queueIndex := removelast q]> queues)
              else steal_attempts remaining' (S attempts) draw owns_lock queues
          | None =>
              steal_attempts remaining' (S attempts) draw owns_lock queues
          end
      | None => steal_attempts remaining' (S attempts) draw owns_lock queues
      end
  end.

Definition TryStealTask (draw : nat -> nat) (owns_lock : nat -> bool)
    (queues : list Queue) : option Task * list Queue :=
  steal_attempts (length queues) 0 draw owns_lock queues.

(** ** TaskSystem.cpp: the scheduler *)

(** Where a worker thread stands in [WorkerThreadFunction].  Each value names
    the code the thread runs next; one transition of a worker runs that code
    atomically.
    - [AtEntry]: the declaration [Task task;]
    - [AtLoopHead]: the test [m_Running.load()]; a thread that found no work
      comes back here after its timed wait
    - [AtTryPop]: [TryPopTask(task, threadIndex)]
    - [AtTrySteal]: [TryStealTask(task)]
    - [AtExecute]: [task.Function(); task.Handle.Decrement();
      m_ActiveTasks.fetch_sub(1)] (the same code after a pop and a steal)
    - [Exited]: the function has returned; the thread can be joined. *)
Inductive WorkerPc : Type :=
| AtEntry
| AtLoopHead
| AtTryPop
| AtTrySteal
| AtExecute
| Exited.

Record Worker : Type := mkWorker {
  threadIndex : nat;
  pc : WorkerPc;
  task : option Task      (* the local [task]; None before its declaration *)
}.

Inductive Mutex : Type := mutex.

Record TaskSystem : Type := mkTaskSystem {
  m_Workers : list Worker;
  m_Queues : list Queue;
  m_QueueMutexes : list Mutex;
  m_Running : bool;
  m_ActiveTasks : Z
}.

(** The members' initialisers: [m_Running{false}], [m_ActiveTasks{0}]. *)
Definition TaskSystem_new : TaskSystem := mkTaskSystem [] [] [] false 0.

(** The program state: the static [s_Instance], the counters' store, and a
    record of what has happened, kept only to state properties:
    [invoked] lists the calls made by callables (and by the serial loop of
    [ParallelFor]), [submitted] the tasks pushed by [ScheduleInternal] and
    [completed] the tasks a worker has run and accounted for, each in
    order. *)
Record World : Type := mkWorld {
  s_Instance : option TaskSystem;
  heap : Heap;
  invoked : list Call;
  submitted : list Task;
  completed : list Task
}.

Definition World_initial : World := mkWorld None [] [] [] [].

Definition set_instance (inst : option TaskSystem) (w : World) : World :=
  mkWorld inst (heap w) (invoked w) (submitted w) (completed w).

Definition GetWorkerCount (w : World) : Z :=
  match s_Instance w with
  | Some ts => UInt32.wrap (Z.of_nat (length (m_Workers ts)))
  | None => 0
  end.

(** [InitializeInternal]; [hardware_concurrency] is what
    [std::thread::hardware_concurrency()] returns. *)
Definition resolve_thread_count (numThreads hardware_concurrency : Z) : Z :=
  let numThreads :=
    if (numThreads =? 0)%Z then
      let numThreads := hardware_concurrency in
      if (1 <? numThreads)%Z then UInt32.sub numThreads 1 else numThreads
    else numThreads in
  Z.max 1 numThreads.

Definition InitializeInternal (numThreads hardware_concurrency : Z)
    (ts : TaskSystem) : TaskSystem :=
  let n := Z.to_nat (resolve_thread_count numThreads hardware_concurrency) in
  mkTaskSystem
    (m_Workers ts ++ ((fun i => mkWorker i AtEntry None) <$> seq 0 n))
    (resize n [] (m_Queues ts))
    (m_QueueMutexes ts ++ replicate n mutex)
    true
    (m_ActiveTasks ts).

Definition Initialize (numThreads hardware_concurrency : Z) (w : World) : World :=
  match s_Instance w with
  | None =>
      set_instance
        (Some (InitializeInternal numThreads hardware_concurrency TaskSystem_new)) w
  | Some _ => w
  end.

(** [ShutdownInternal] runs in two parts: the first stores [false] in
    [m_Running] and notifies; the second is what follows the joins, and runs
    once every worker thread has returned. *)
Definition ShutdownInternal_signal (ts : TaskSystem) : TaskSystem :=
  mkTaskSystem (m_Workers ts) (m_Queues ts) (m_QueueMutexes ts) false
    (m_ActiveTasks ts).

Definition joinable_done (wk : Worker) : bool :=
  match pc wk with Exited => true | _ => false end.

Definition all_joined (ts : TaskSystem) : bool :=
  forallb joinable_done (m_Workers ts).

Definition ShutdownInternal_release (ts : TaskSystem) : TaskSystem :=
  mkTaskSystem [] [] [] (m_Running ts) (m_ActiveTasks ts).

(** [Shutdown] up to the joins. *)
Definition Shutdown_signal (w : World) : World :=
  match s_Instance w with
  | Some ts => set_instance (Some (ShutdownInternal_signal ts)) w
  | None => w
  end.

(** The rest of [Shutdown]: the joins return, the vectors are cleared, the
    instance is deleted.  While a worker has yet to return, or when no
    shutdown is under way, nothing happens. *)
Definition Shutdown_join (w : World) : World :=
  match s_Instance w with
  | Some ts =>
      if negb (m_Running ts) && all_joined ts
      then let _ := ShutdownInternal_release ts in set_instance None w
      else w
  | None => w
  end.

(** [ScheduleInternal]; [draw] is the number the submitting thread's
    generator yields. *)
Definition ScheduleInternal (function : option TaskFunction)
    (priority : TaskPriority) (draw : nat) (ts : TaskSystem) (w : World)
    : TaskHandle * World :=
  let '(task, hp) := Task_new function priority (heap w) in
  let active := UInt32.add (m_ActiveTasks ts) 1 in
  let hp := Increment (Handle task) hp in
  let handle := Handle task in
  let targetQueue := draw mod length (m_Queues ts) in
  let queues := PushTask task targetQueue (m_Queues ts) in
  (handle,
   mkWorld
     (Some (mkTaskSystem (m_Workers ts) queues (m_QueueMutexes ts)
              (m_Running ts) active))
     hp (invoked w) (submitted w ++ [task]) (completed w)).

Definition Schedule (function : option TaskFunction) (priority : TaskPriority)
    (draw : nat) (w : World) : TaskHandle * World :=
  match s_Instance w with
  | Some ts => ScheduleInternal function priority draw ts w
  | None =>
      let '(h, hp) := TaskHandle_new (heap w) in
      (h, mkWorld None hp (invoked w) (submitted w) (completed w))
  end.

(** [ScheduleBatch]; [draw k] is the draw of the [k]-th [Schedule]. *)
Fixpoint ScheduleBatch (functions : list (option TaskFunction))
    (priority : TaskPriority) (draw : nat -> nat) (w : World)
    : list TaskHandle * World :=
  match functions with
  | [] => ([], w)
  | func :: rest =>
      let '(h, w) := Schedule func priority (draw 0) w in
      let '(handles, w) := ScheduleBatch rest priority (fun k => draw (S k)) w in
      (h :: handles, w)
  end.

(** The guard of the polling loop of [WaitForAll]. *)
Definition WaitForAll_guard (w : World) : bool :=
  match s_Instance w with
  | Some ts => (0 <? m_ActiveTasks ts)%Z
  | None => false
  end.

(** *** The worker loop *)

Definition set_worker (i : nat) (wk : Worker) (ts : TaskSystem) : TaskSystem :=
  mkTaskSystem (<[i := wk]> (m_Workers ts)) (m_Queues ts) (m_QueueMutexes ts)
    (m_Running ts) (m_ActiveTasks ts).

Definition set_queues (queues : list Queue) (ts : TaskSystem) : TaskSystem :=
  mkTaskSystem (m_Workers ts) queues (m_QueueMutexes ts)
    (m_Running ts) (m_ActiveTasks ts).

(** What a worker's next transition may depend on besides the state: whether
    the [try_to_lock] on its own queue succeeds, and the draws and lock
    outcomes of a steal. *)
Record Chance : Type := mkChance {
  own_lock : bool;
  steal_draw : nat -> nat;
  steal_lock : nat -> bool
}.

(** [if (task.Function) task.Function();] *)
Definition task_calls (t : Task) : list Call :=
  match Function t with
  | Some f => invoke f
  | None => []
  end.

(** No contention: every [try_to_lock] succeeds. *)
Definition uncontended (draw : nat -> nat) : Chance :=
  mkChance true draw (fun _ => true).

(** One transition of the thread [m_Workers[slot]], which runs
    [WorkerThreadFunction(threadIndex)]. *)
Definition worker_step (ch : Chance) (slot : nat) (wk : Worker)
    (ts : TaskSystem) (w : World) : World :=
  let i := threadIndex wk in
  let set_worker := set_worker slot in
  match pc wk with
  | AtEntry =>
      let '(t, hp) := Task_new None Normal (heap w) in
      mkWorld (Some (set_worker (mkWorker i AtLoopHead (Some t)) ts))
        hp (invoked w) (submitted w) (completed w)
  | AtLoopHead =>
      let next := if m_Running ts then AtTryPop else Exited in
      set_instance (Some (set_worker (mkWorker i next (task wk)) ts)) w
  | AtTryPop =>
      match TryPopTask (own_lock ch) i (m_Queues ts) with
      | (Some t, queues) =>
          set_instance
            (Some (set_worker (mkWorker i AtExecute (Some t))
                     (set_queues queues ts))) w
      | (None, _) =>
          set_instance (Some (set_worker (mkWorker i AtTrySteal (task wk)) ts)) w
      end
  | AtTrySteal =>
      match TryStealTask (steal_draw ch) (steal_lock ch) (m_Queues ts) with
      | (Some t, queues) =>
          set_instance
            (Some (set_worker (mkWorker i AtExecute (Some t))
                     (set_queues queues ts))) w
      | (None, _) =>
          set_instance (Some (set_worker (mkWorker i AtLoopHead (task wk)) ts)) w
      end
  | AtExecute =>
      match task wk with
      | Some t =>
          let calls := task_calls t in
          let hp := Decrement (Handle t) (heap w) in
          let ts :=
            mkTaskSystem (m_Workers ts) (m_Queues ts) (m_QueueMutexes ts)
              (m_Running ts) (UInt32.sub (m_ActiveTasks ts) 1) in
          mkWorld (Some (set_worker (mkWorker i AtLoopHead (Some t)) ts))
            hp (invoked w ++ calls) (submitted w) (completed w ++ [t])
      | None => w
      end
  | Exited => w
  end.

(** *** Executions *)

Inductive Event : Type :=
| EvInitialize (numThreads hardware_concurrency : Z)
| EvShutdownSignal
| EvShutdownJoin
| EvSchedule (function : option TaskFunction) (priority : TaskPriority)
    (draw : nat)
| EvWorker (i : nat) (ch : Chance).

Definition step (w : World) (ev : Event) : World :=
  match ev with
  | EvInitialize numThreads hc => Initialize numThreads hc w
  | EvShutdownSignal => Shutdown_signal w
  | EvShutdownJoin => Shutdown_join w
  | EvSchedule function priority draw =>
      snd (Schedule function priority draw w)
  | EvWorker i ch =>
      match s_Instance w with
      | Some ts =>
          match m_Workers ts !! i with
          | Some wk => worker_step ch i wk ts w
          | None => w
          end
      | None => w
      end
  end.

Definition run (evs : list Event) (w : World) : World := foldl step w evs.

(** The tasks waiting in some queue. *)
Definition queued (w : World) : list Task :=
  match s_Instance w with
  | Some ts => concat (m_Queues ts)
  | None => []
  end.

(** ** ParallelFor *)

Module ParallelFor.
Local Open Scope Z_scope.

(** [batchSize = std::max(1u, count / (workerCount * 4))] when the caller
    passed 0. *)
Definition effective_batch_size (count workerCount batchSize : Z) : Z :=
  if batchSize =? 0
  then Z.max 1 (UInt32.div count (UInt32.mul workerCount 4))
  else batchSize.

(** [numBatches = (count + batchSize - 1) / batchSize] *)
Definition num_batches (count batchSize : Z) : Z :=
  UInt32.div (UInt32.sub (UInt32.add count batchSize) 1) batchSize.

Definition batch_start (batch batchSize : Z) : Z := UInt32.mul batch batchSize.

Definition batch_end (start batchSize count : Z) : Z :=
  Z.min (UInt32.add start batchSize) count.

(** The submission loop: [remaining] iterations are left and [batch] is
    the loop variable; [draw k] is the draw of the [k]-th [Schedule] from
    here on. *)
Fixpoint submit_batches (remaining : nat) (batch count batchSize : Z)
    (draw : nat -> nat) (w : World) : list TaskHandle * World :=
  match remaining with
  | O => ([], w)
  | S remaining' =>
      let start := batch_start batch batchSize in
      let end_ := batch_end start batchSize count in
      let '(handle, w) :=
        Schedule (Some (BatchFn start end_)) Normal (draw O) w in
      let '(handles, w) :=
        submit_batches remaining' (batch + 1) count batchSize
          (fun k => draw (S k)) w in
      (handle :: handles, w)
  end.

(** [Execute] up to its final loop of [Wait]s: the result is the handles it
    goes on to wait for and the state its submissions leave.  In the serial
    branch the calling thread makes the calls itself. *)
Definition Execute (count batchSize : Z) (draw : nat -> nat) (w : World)
    : list TaskHandle * World :=
  if count =? 0 then ([], w)
  else
    let workerCount := GetWorkerCount w in
    if workerCount =? 0 then
      ([], mkWorld (s_Instance w) (heap w)
             (invoked w ++ (CallIndex <$> index_range 0 count))
             (submitted w) (completed w))
    else
      let batchSize := effective_batch_size count workerCount batchSize in
      let numBatches := num_batches count batchSize in
      submit_batches (Z.to_nat numBatches) 0 count batchSize draw w.

(** The callables the submission loop creates, in order. *)
Fixpoint batch_functions (remaining : nat) (batch count batchSize : Z)
    : list TaskFunction :=
  match remaining with
  | O => []
  | S remaining' =>
      let start := batch_start batch batchSize in
      BatchFn start (batch_end start batchSize count)
        :: batch_functions remaining' (batch + 1) count batchSize
  end.

(** The quotient rounded up, on unbounded integers. *)
Definition ceil_div (a b : Z) : Z := (a + b - 1) / b.
End ParallelFor.

(** ** Notions used to state the properties *)

(** *** Order within a queue

    [age] numbers the tasks by the time of their insertion: a task pushed
    later has a larger age.  [runs_before age a b] is the order the queues
    keep: higher priority first, and among equal priorities the older task
    first. *)
Definition runs_before (age : Task -> nat) (a b : Task) : Prop :=
  (priority_value (Priority b) < priority_value (Priority a))%Z
  \/ (Priority a = Priority b /\ age a < age b).

Definition queue_sorted (age : Task -> nat) (q : Queue) : Prop :=
  StronglySorted (runs_before age) q.

(** The front of [q] has the highest priority of [q] and is the oldest of
    the tasks of that priority. *)
Definition front_is_first (age : Task -> nat) (q : Queue) : Prop :=
  forall front rest, q = front :: rest ->
    forall t, t ∈ rest ->
      (priority_value (Priority t) <= priority_value (Priority front))%Z
      /\ (Priority t = Priority front -> age front < age t).

(** The back of [q] has the lowest priority of [q] and is the newest of the
    tasks of that priority. *)
Definition back_is_last (age : Task -> nat) (q : Queue) (back : Task) : Prop :=
  forall t, t ∈ q ->
    (priority_value (Priority back) <= priority_value (Priority t))%Z
    /\ (Priority t = Priority back -> age t < age back).

(** The operations on the vector of queues, and their sequences. *)
Inductive QueueOp : Type :=
| OpPushTask (task : Task) (threadIndex : nat)
| OpTryPopTask (owns_lock : bool) (threadIndex : nat)
| OpTryStealTask (draw : nat -> nat) (owns_lock : nat -> bool).

Definition apply_op (queues : list Queue) (op : QueueOp) : list Queue :=
  match op with
  | OpPushTask task threadIndex => PushTask task threadIndex queues
  | OpTryPopTask owns_lock threadIndex =>
      snd (TryPopTask owns_lock threadIndex queues)
  | OpTryStealTask draw owns_lock => snd (TryStealTask draw owns_lock queues)
  end.

Definition run_ops (ops : list QueueOp) (queues : list Queue) : list Queue :=
  foldl apply_op queues ops.

Fixpoint pushed_tasks (ops : list QueueOp) : list Task :=
  match ops with
  | [] => []
  | OpPushTask task _ :: ops => task :: pushed_tasks ops
  | _ :: ops => pushed_tasks ops
  end.

(** The ages follow the order of the pushes. *)
Definition pushed_in_age_order (age : Task -> nat) (ops : list QueueOp) : Prop :=
  StronglySorted lt (age <$> pushed_tasks ops).

(** Whether attempt [k] of a steal finds something to take: the lock is
    obtained and the queue drawn is not empty. *)
Definition probe_finds (queues : list Queue) (draw : nat -> nat)
    (owns_lock : nat -> bool) (k : nat) : bool :=
  owns_lock k &&
  match queues !! (draw k mod length queues) with
  | Some (_ :: _) => true
  | _ => false
  end.

(** [t] sits in one of the queues. *)
Definition holds (queues : list Queue) (t : Task) : Prop :=
  exists i q, queues !! i = Some q /\ t ∈ q.

(** In the scheduler every task gets a fresh counter when it is submitted,
    so the address of a task's counter numbers the tasks by submission. *)
Definition handle_age (t : Task) : nat := default 0 (m_Counter (Handle t)).

(** *** Accounting

    The tasks that are submitted and not yet run: those in the queues and
    those a worker has taken and is about to run. *)
Definition held (wk : Worker) : list Task :=
  match pc wk with
  | AtExecute => option_list (task wk)
  | _ => []
  end.

Definition running (ts : TaskSystem) : list Task := m_Workers ts ≫= held.

Definition pending (w : World) : list Task :=
  match s_Instance w with
  | Some ts => concat (m_Queues ts) ++ running ts
  | None => []
  end.

(** Every task submitted with handle [h] has completed. *)
Definition all_completed (h : TaskHandle) (w : World) : Prop :=
  forall t, t ∈ submitted w -> Handle t = h -> t ∈ completed w.

(** What a transition does to the counters and to the record of submitted,
    pending and completed tasks. *)
Inductive Effect (w w' : World) : Prop :=
| effect_quiet :
    (heap w' = heap w \/ heap w' = heap w ++ [0%Z]) ->
    submitted w' = submitted w ->
    completed w' = completed w ->
    invoked w' = invoked w ->
    pending w' ⊆+ pending w ->
    Effect w w'
| effect_submit (t : Task) :
    Handle t = mkTaskHandle (Some (length (heap w))) ->
    heap w' = Increment (Handle t) (heap w ++ [0%Z]) ->
    submitted w' = submitted w ++ [t] ->
    completed w' = completed w ->
    invoked w' = invoked w ->
    pending w' ⊆+ t :: pending w ->
    Effect w w'
| effect_complete (t : Task) :
    pending w ≡ₚ t :: pending w' ->
    heap w' = Decrement (Handle t) (heap w) ->
    submitted w' = submitted w ->
    completed w' = completed w ++ [t] ->
    invoked w' = invoked w ++ task_calls t ->
    Effect w w'.

(** The accounts are in order. *)
Record Consistent (w : World) : Prop := mkConsistent {
  submitted_allocated :
    forall t, t ∈ submitted w ->
      exists l, Handle t = mkTaskHandle (Some l) /\ l < length (heap w);
  submitted_distinct : NoDup (Handle <$> submitted w);
  live_distinct : NoDup (Handle <$> (completed w ++ pending w));
  live_submitted : forall t, t ∈ completed w ++ pending w -> t ∈ submitted w;
  counters_match :
    forall l,
      (counter_load (heap w) l = 1%Z
       /\ exists t, t ∈ submitted w /\ Handle t = mkTaskHandle (Some l)
                    /\ t ∉ completed w)
      \/ (counter_load (heap w) l = 0%Z
          /\ all_completed (mkTaskHandle (Some l)) w);
  invoked_by_completed : invoked w = completed w ≫= task_calls
}.

(** The queues of the scheduler are sorted, the tasks being numbered by the
    addresses of their counters, and they hold allocated counters only. *)
Definition queues_in_order (w : World) : Prop :=
  match s_Instance w with
  | Some ts =>
      Forall (queue_sorted handle_age) (m_Queues ts)
      /\ forall t, holds (m_Queues ts) t -> handle_age t < length (heap w)
  | None => True
  end.

(** Where the worker thread [m_Workers[slot]] stands. *)
Definition worker_pc (w : World) (slot : nat) : option WorkerPc :=
  ts ← s_Instance w; wk ← m_Workers ts !! slot; Some (pc wk).

(** ** Notions used for the scheduler as a whole *)

(** The shape [InitializeInternal] gives the scheduler: one queue and one
    mutex per worker, at least one worker, the worker in slot [i] running
    [WorkerThreadFunction(i)]; a worker past the declaration of its local
    [task] has one. *)
Definition well_shaped (w : World) : Prop :=
  match s_Instance w with
  | Some ts =>
      1 <= length (m_Workers ts)
      /\ length (m_Queues ts) = length (m_Workers ts)
      /\ length (m_QueueMutexes ts) = length (m_Workers ts)
      /\ forall i wk, m_Workers ts !! i = Some wk ->
           threadIndex wk = i /\ (pc wk = AtEntry \/ is_Some (task wk))
  | None => True
  end.

(** The transitions of worker [i] among [evs]. *)
Fixpoint worker_steps (i : nat) (evs : list Event) : nat :=
  match evs with
  | [] => 0
  | EvWorker j _ :: evs =>
      (if decide (i = j) then 1 else 0) + worker_steps i evs
  | _ :: evs => worker_steps i evs
  end.

(** No [Shutdown] completes among [evs]. *)
Definition no_join (evs : list Event) : Prop :=
  Forall (fun ev => match ev with EvShutdownJoin => False | _ => True end) evs.

(** How many transitions a worker needs at most to return, once the running
    flag is false. *)
Definition steps_to_exit (p : WorkerPc) : nat :=
  match p with
  | Exited => 0
  | AtLoopHead => 1
  | AtEntry | AtExecute => 2
  | AtTrySteal => 3
  | AtTryPop => 4
  end.

(** The global count of tasks in flight; without a scheduler there is no
    counter and nothing in flight. *)
Definition active_tasks (w : World) : Z :=
  match s_Instance w with
  | Some ts => m_ActiveTasks ts
  | None => 0%Z
  end.

(** What a transition does to the pending tasks and to the count of tasks
    in flight, exactly. *)
Inductive Flow (ev : Event) (w w' : World) : Prop :=
| flow_quiet :
    pending w' ≡ₚ pending w ->
    submitted w' = submitted w ->
    completed w' = completed w ->
    active_tasks w' = active_tasks w ->
    Flow ev w w'
| flow_submit (t : Task) :
    pending w' ≡ₚ t :: pending w ->
    submitted w' = submitted w ++ [t] ->
    completed w' = completed w ->
    active_tasks w' = UInt32.add (active_tasks w) 1 ->
    Flow ev w w'
| flow_complete (t : Task) :
    pending w ≡ₚ t :: pending w' ->
    submitted w' = submitted w ->
    completed w' = completed w ++ [t] ->
    active_tasks w' = UInt32.sub (active_tasks w) 1 ->
    Flow ev w w'
| flow_drop :
    ev = EvShutdownJoin ->
    s_Instance w' = None ->
    submitted w' = submitted w ->
    completed w' = completed w ->
    Flow ev w w'.

(** Whether a worker at [p] can still run a task before it next tests the
    running flag. *)
Definition may_still_run (p : WorkerPc) : nat :=
  match p with
  | AtTryPop | AtTrySteal | AtExecute => 1
  | _ => 0
  end.

Definition tasks_in_reach (ts : TaskSystem) : nat :=
  sum_list_with (fun wk => may_still_run (pc wk)) (m_Workers ts).

(** * Properties *)

(** ** The worker queues *)

Lemma insert_by_priority_elem_of (t x : Task) (q : Queue) :
  x ∈ insert_by_priority t q <-> x = t \/ x ∈ q.
Proof.
  induction q as [|it rest IH]; simpl.
  - rewrite list_elem_of_singleton, elem_of_nil. tauto.
  - destruct (_ <=? _)%Z; rewrite !elem_of_cons; [rewrite IH|]; tauto.
Qed.

(** [PushTask]'s loop stops at the first element of strictly lower
    priority: everything before the new task has at least its priority. *)
Lemma insert_by_priority_split (t : Task) (q : Queue) :
  exists ahead behind,
    q = ahead ++ behind
    /\ insert_by_priority t q = ahead ++ t :: behind
    /\ Forall (fun u => (priority_value (Priority t)
                         <= priority_value (Priority u))%Z) ahead
    /\ (forall u, head behind = Some u ->
          (priority_value (Priority u) < priority_value (Priority t))%Z).
Proof.
  induction q as [|it rest (ahead & behind & -> & Hins & Hge & Hlt)]; simpl.
  - exists [], []. repeat split; [constructor | discriminate].
  - destruct (Z.leb_spec (priority_value (Priority t))
                (priority_value (Priority it))).
    + exists (it :: ahead), behind. rewrite Hins.
      repeat split; [by constructor | done].
    + exists [], (it :: ahead ++ behind).
      repeat split; [constructor | intros u [= <-]; lia].
Qed.

Lemma priority_value_inj (p p' : TaskPriority) :
  priority_value p = priority_value p' -> p = p'.
Proof. destruct p, p'; simpl; congruence. Qed.

(** What the three operations do to the vector of queues. *)
Lemma TryPopTask_cases (owns_lock : bool) (i : nat) (queues : list Queue) :
  TryPopTask owns_lock i queues = (None, queues)
  \/ exists front rest,
       owns_lock = true
       /\ queues !! i = Some (front :: rest)
       /\ TryPopTask owns_lock i queues = (Some front, <[i := rest]> queues).
Proof.
  unfold TryPopTask.
  destruct (queues !! i) as [[|front rest]|]; [by left | | by left].
  destruct owns_lock; [right; by exists front, rest | by left].
Qed.

Lemma steal_attempts_cases (remaining attempts : nat)
    (draw : nat -> nat) (owns_lock : nat -> bool) (queues : list Queue) :
  (steal_attempts remaining attempts draw owns_lock queues = (None, queues)
   /\ forall k, attempts <= k < attempts + remaining ->
        probe_finds queues draw owns_lock k = false)
  \/ exists k q back,
       attempts <= k < attempts + remaining
       /\ (forall k', attempts <= k' < k ->
             probe_finds queues draw owns_lock k' = false)
       /\ owns_lock k = true
       /\ queues !! (draw k mod length queues) = Some (q ++ [back])
       /\ steal_attempts remaining attempts draw owns_lock queues
          = (Some back, <[draw k mod length queues := q]> queues).
Proof.
  revert attempts.
  induction remaining as [|remaining IH]; intros attempts; simpl.
  - left. split; [done | intros k Hk; lia].
  - assert (Hnext :
      probe_finds queues draw owns_lock attempts = false ->
      (steal_attempts remaining (S attempts) draw owns_lock queues
         = (None, queues)
       /\ forall k, attempts <= k < attempts + S remaining ->
            probe_finds queues draw owns_lock k = false)
      \/ exists k q back,
           attempts <= k < attempts + S remaining
           /\ (forall k', attempts <= k' < k ->
                 probe_finds queues draw owns_lock k' = false)
           /\ owns_lock k = true
           /\ queues !! (draw k mod length queues) = Some (q ++ [back])
           /\ steal_attempts remaining (S attempts) draw owns_lock queues
              = (Some back, <[draw k mod length queues := q]> queues)).
    { intros Hfail.
      destruct (IH (S attempts)) as [[Hnone Hall]|(k & q & back & Hk & Hbefore & Hrest)].
      - left. split; [done|]. intros k Hk.
        destruct (decide (k = attempts)) as [->|]; [done | apply Hall; lia].
      - right. exists k, q, back. split; [lia|]. split; [|done].
        intros k' Hk'.
        destruct (decide (k' = attempts)) as [->|]; [done | apply Hbefore; lia]. }
    unfold probe_finds in Hnext at 1.
    destruct (queues !! (draw attempts mod length queues)) as [q|] eqn:Hq;
      [| apply Hnext; by rewrite andb_false_r].
    destruct (list.last q) as [back|] eqn:Hlast.
    + apply last_Some in Hlast as [q' ->].
      destruct (owns_lock attempts) eqn:Hown.
      * right. exists attempts, q', back.
        rewrite removelast_last.
        repeat split; [lia | lia | intros; lia | done | done].
      * apply Hnext. by destruct (q' ++ [back]).
    + apply last_None in Hlast as ->. apply Hnext. by rewrite andb_false_r.
Qed.

Lemma TryStealTask_cases (draw : nat -> nat) (owns_lock : nat -> bool)
    (queues : list Queue) :
  (TryStealTask draw owns_lock queues = (None, queues)
   /\ forall k, k < length queues ->
        probe_finds queues draw owns_lock k = false)
  \/ exists k q back,
       k < length queues
       /\ (forall k', k' < k -> probe_finds queues draw owns_lock k' = false)
       /\ owns_lock k = true
       /\ queues !! (draw k mod length queues) = Some (q ++ [back])
       /\ TryStealTask draw owns_lock queues
          = (Some back, <[draw k mod length queues := q]> queues).
Proof.
  unfold TryStealTask.
  destruct (steal_attempts_cases (length queues) 0 draw owns_lock queues)
    as [[Hnone Hall]|(k & q & back & Hk & Hbefore & Hrest)].
  - left. split; [done | intros k Hk; apply Hall; lia].
  - right. exists k, q, back. split; [lia|]. split; [|done].
    intros k' Hk'. apply Hbefore. lia.
Qed.

Lemma holds_PushTask (task t : Task) (i : nat) (queues : list Queue) :
  holds (PushTask task i queues) t -> t = task \/ holds queues t.
Proof.
  unfold PushTask. intros (j & q & Hq & Ht).
  destruct (decide (i = j)) as [<-|Hne].
  - rewrite list_lookup_alter_eq in Hq.
    destruct (queues !! i) as [q0|] eqn:Hq0; simplify_eq/=.
    apply insert_by_priority_elem_of in Ht as [->|Ht]; [by left|].
    right. by exists i, q0.
  - rewrite list_lookup_alter_ne in Hq by done. right. by exists j, q.
Qed.

Lemma holds_insert_sublist (t : Task) (i : nat) (q q' : Queue)
    (queues : list Queue) :
  queues !! i = Some q -> (forall u, u ∈ q' -> u ∈ q) ->
  holds (<[i := q']> queues) t -> holds queues t.
Proof.
  intros Hq Hsub (j & q1 & Hq1 & Ht).
  apply list_lookup_insert_Some in Hq1 as [(<- & <- & _)|[Hne Hq1]].
  - exists i, q. split; [done | by apply Hsub].
  - by exists j, q1.
Qed.

Lemma holds_apply_op (op : QueueOp) (t : Task) (queues : list Queue) :
  holds (apply_op queues op) t ->
  holds queues t \/ exists i, op = OpPushTask t i.
Proof.
  destruct op as [task i | owns_lock i | draw owns_lock]; simpl.
  - intros [->|H]%holds_PushTask; [right; by exists i | by left].
  - destruct (TryPopTask_cases owns_lock i queues)
      as [-> | (front & rest & _ & Hq & ->)]; simpl; [by left|].
    intros H. left. eapply holds_insert_sublist; [done | | done].
    intros u Hu. by right.
  - destruct (TryStealTask_cases draw owns_lock queues)
      as [[-> _] | (k & q & back & _ & _ & _ & Hq & ->)]; simpl; [by left|].
    intros H. left. eapply holds_insert_sublist; [done | | done].
    intros u Hu. apply elem_of_app. by left.
Qed.

(** *** Sorted queues *)

Section QueueOrder.
Variable age : Task -> nat.

Lemma insert_by_priority_sorted (t : Task) (q : Queue) :
  queue_sorted age q ->
  (forall u, u ∈ q -> age u < age t) ->
  queue_sorted age (insert_by_priority t q).
Proof.
  unfold queue_sorted.
  induction q as [|it rest IH]; simpl; intros Hs Hage.
  - repeat constructor.
  - apply StronglySorted_inv in Hs as [Hs Hall].
    destruct (Z.leb_spec (priority_value (Priority t))
                (priority_value (Priority it))) as [Hle|Hlt].
    + constructor.
      * apply IH; [done | intros u Hu; apply Hage; by right].
      * apply Forall_forall. intros x Hx.
        apply insert_by_priority_elem_of in Hx as [-> | Hx].
        -- destruct (decide (priority_value (Priority t)
                             = priority_value (Priority it))) as [He|Hne].
           ++ right. split; [symmetry; by apply priority_value_inj |].
              apply Hage. by left.
           ++ left. lia.
        -- rewrite Forall_forall in Hall. by apply Hall.
    + constructor; [by constructor |].
      constructor; [left; lia |].
      apply Forall_forall. intros x Hx.
      rewrite Forall_forall in Hall. destruct (Hall x Hx) as [H|[He _]].
      * left. lia.
      * left. rewrite <- He. lia.
Qed.

Lemma queue_sorted_tail (front : Task) (rest : Queue) :
  queue_sorted age (front :: rest) -> queue_sorted age rest.
Proof. intros H. by apply StronglySorted_inv in H as [? _]. Qed.

Lemma apply_op_sorted (op : QueueOp) (queues : list Queue) :
  Forall (queue_sorted age) queues ->
  (forall task i, op = OpPushTask task i ->
     forall u, holds queues u -> age u < age task) ->
  Forall (queue_sorted age) (apply_op queues op).
Proof.
  intros Hs Hnew.
  destruct op as [task i | owns_lock i | draw owns_lock]; simpl.
  - unfold PushTask. apply Forall_alter; [done|].
    intros q Hq Hsq. apply insert_by_priority_sorted; [done|].
    intros u Hu. eapply Hnew; [done|]. by exists i, q.
  - destruct (TryPopTask_cases owns_lock i queues)
      as [-> | (front & rest & _ & Hq & ->)]; simpl; [done|].
    apply Forall_insert; [done|].
    rewrite Forall_lookup in Hs. eapply queue_sorted_tail, Hs, Hq.
  - destruct (TryStealTask_cases draw owns_lock queues)
      as [[-> _] | (k & q & back & _ & _ & _ & Hq & ->)]; simpl; [done|].
    apply Forall_insert; [done|].
    rewrite Forall_lookup in Hs. specialize (Hs _ _ Hq).
    by apply StronglySorted_app_1_l in Hs.
Qed.

Lemma run_ops_sorted (ops : list QueueOp) :
  forall queues : list Queue,
    Forall (queue_sorted age) queues ->
    pushed_in_age_order age ops ->
    (forall t u, holds queues t -> u ∈ pushed_tasks ops -> age t < age u) ->
    Forall (queue_sorted age) (run_ops ops queues).
Proof.
  unfold pushed_in_age_order, run_ops.
  induction ops as [|op ops IH]; intros queues Hs Hord Hold; simpl; [done|].
  apply IH.
  - apply apply_op_sorted; [done|].
    intros task i -> u Hu. apply Hold; [done | by left].
  - destruct op; simpl in *; [| done | done].
    by apply StronglySorted_inv in Hord as [? _].
  - intros t u [Ht|[i ->]]%holds_apply_op Hu.
    + apply Hold; [done|]. destruct op; simpl; [by right | done | done].
    + simpl in Hord. apply StronglySorted_inv in Hord as [_ Hall].
      rewrite Forall_forall in Hall. apply Hall.
      apply list_elem_of_fmap. by exists u.
Qed.

Lemma queue_sorted_front (q : Queue) :
  queue_sorted age q -> front_is_first age q.
Proof.
  intros Hs front rest -> t Ht.
  apply StronglySorted_inv in Hs as [_ Hall].
  rewrite Forall_forall in Hall. destruct (Hall t Ht) as [Hlt|[He Hage]].
  - split; [lia | intros He; rewrite He in Hlt; lia].
  - split; [rewrite He; lia | done].
Qed.

Lemma queue_sorted_back (q : Queue) (back : Task) :
  queue_sorted age (q ++ [back]) -> back_is_last age q back.
Proof.
  intros Hs t Ht.
  assert (runs_before age t back) as [Hlt|[He Hage]].
  { eapply (StronglySorted_app_1_elem_of _ q [back]); [done..|]. by left. }
  - split; [lia | intros He; rewrite He in Hlt; lia].
  - split; [rewrite He; lia | done].
Qed.

(** C2.  Start from the empty queues of a fresh scheduler and apply any
    sequence of [PushTask], [TryPopTask] and [TryStealTask], whatever the
    indices, lock outcomes and draws, the tasks pushed being numbered by
    [age] in the order of their pushes.  Then every queue is sorted by
    descending priority with ties in insertion order, and its front is the
    highest-priority, oldest-among-equals task. *)
Theorem queues_stay_sorted (n : nat) (ops : list QueueOp) :
  pushed_in_age_order age ops ->
  Forall (fun q => queue_sorted age q /\ front_is_first age q)
    (run_ops ops (replicate n [])).
Proof.
  intros Hord.
  assert (Forall (queue_sorted age) (run_ops ops (replicate n []))) as Hs.
  { apply run_ops_sorted; [| done |].
    - apply Forall_replicate. constructor.
    - intros t u (i & q & Hq & Ht) _.
      apply lookup_replicate in Hq as [-> _]. by apply elem_of_nil in Ht. }
  eapply Forall_impl; [exact Hs|].
  intros q Hq. split; [done | by apply queue_sorted_front].
Qed.


(** C6.  [TryStealTask] makes at most one probe per queue of the vector,
    each on a queue index drawn at random and each with a [try_to_lock].
    At the first probe that gets the lock of a non-empty queue it removes
    and returns that queue's back element and leaves every other queue
    alone; when the queues are sorted, this element has the lowest
    priority of its queue and is the newest of that priority.  When every
    probe fails, nothing is taken. *)
Theorem TryStealTask_takes_back (draw : nat -> nat) (owns_lock : nat -> bool)
    (queues : list Queue) :
  Forall (queue_sorted age) queues ->
  match TryStealTask draw owns_lock queues with
  | (Some stolen, queues') =>
      exists k q,
        k < length queues
        /\ (forall k', k' < k -> probe_finds queues draw owns_lock k' = false)
        /\ owns_lock k = true
        /\ queues !! (draw k mod length queues) = Some (q ++ [stolen])
        /\ queues' = <[draw k mod length queues := q]> queues
        /\ back_is_last age q stolen
  | (None, queues') =>
      queues' = queues
      /\ forall k, k < length queues ->
           probe_finds queues draw owns_lock k = false
  end.
Proof.
  intros Hs.
  destruct (TryStealTask_cases draw owns_lock queues)
    as [[-> Hall] | (k & q & back & Hk & Hbefore & Hown & Hq & ->)];
    [by split|].
  exists k, q. split_and!; [done..|].
  rewrite Forall_lookup in Hs. apply queue_sorted_back, (Hs _ _ Hq).
Qed.
End QueueOrder.

Lemma queues_stay_sorted_witness :
  let tA := mkTask (Some (UserFn 1)) Low (mkTaskHandle (Some 0)) in
  let tB := mkTask (Some (UserFn 2)) High (mkTaskHandle (Some 1)) in
  let tC := mkTask (Some (UserFn 3)) Low (mkTaskHandle (Some 2)) in
  let ops := [OpPushTask tA 0; OpPushTask tB 0; OpPushTask tC 0;
              OpTryPopTask true 0; OpTryStealTask (fun _ => 0) (fun _ => true);
              OpPushTask (mkTask None Normal (mkTaskHandle (Some 3))) 1] in
  pushed_in_age_order handle_age ops
  /\ Forall (fun q => queue_sorted handle_age q /\ front_is_first handle_age q)
       (run_ops ops (replicate 2 [])).
Proof.
  intros tA tB tC ops.
  assert (pushed_in_age_order handle_age ops) as Hord.
  { unfold pushed_in_age_order. simpl.
    repeat (constructor; [| repeat (constructor; [unfold handle_age; simpl; lia|])]);
      constructor. }
  split; [exact Hord | exact (queues_stay_sorted handle_age 2 ops Hord)].
Defined.

Lemma TryStealTask_takes_back_witness :
  let tA := mkTask (Some (UserFn 1)) Low (mkTaskHandle (Some 0)) in
  let tB := mkTask (Some (UserFn 2)) High (mkTaskHandle (Some 1)) in
  let tC := mkTask (Some (UserFn 3)) Low (mkTaskHandle (Some 2)) in
  let queues := [[]; [tB; tA; tC]] in
  Forall (queue_sorted handle_age) queues
  /\ exists k q,
       k < length queues
       /\ (forall k', k' < k ->
             probe_finds queues (fun k => k) (fun _ => true) k' = false)
       /\ true = true
       /\ queues !! (k mod length queues) = Some (q ++ [tC])
       /\ [[]; [tB; tA]] = <[k mod length queues := q]> queues
       /\ back_is_last handle_age q tC.
Proof.
  intros tA tB tC queues.
  assert (Forall (queue_sorted handle_age) queues) as Hs.
  { repeat constructor; unfold runs_before, handle_age; simpl;
      first [left; lia | right; split; [reflexivity | lia]]. }
  split; [exact Hs|].
  exact (TryStealTask_takes_back handle_age (fun k => k) (fun _ => true)
           queues Hs).
Defined.

(** ** Task handles *)

Lemma Wait_guard_false_iff (h : TaskHandle) (l : loc) (hp : Heap) :
  m_Counter h = Some l ->
  Wait_guard h hp = false <-> (counter_load hp l <= 0)%Z.
Proof. unfold Wait_guard. intros ->. apply Z.ltb_ge. Qed.

Lemma Wait_exits_at (h : TaskHandle) (polls : list Heap) (k : nat) :
  Wait h polls = Some k <->
  (exists hp, polls !! k = Some hp /\ Wait_guard h hp = false)
  /\ (forall j hp, j < k -> polls !! j = Some hp -> Wait_guard h hp = true).
Proof.
  revert k. induction polls as [|hp later IH]; intros k; simpl.
  - split; [done | by intros [(hp & ? & _) _]].
  - destruct (Wait_guard h hp) eqn:Hg.
    + destruct k as [|k].
      * split; [by destruct (Wait h later) | ].
        intros [(hp' & [= <-] & Hf) _]. congruence.
      * split.
        -- intros H. assert (Wait h later = Some k) as [Hex Hall]%IH.
           { destruct (Wait h later); simpl in H; congruence. }
           split; [done|].
           intros [|j] hp' Hj Hl; simplify_eq/=; [done|].
           apply (Hall j hp'); [lia | done].
        -- intros [Hex Hall]. assert (Wait h later = Some k) as ->; [|done].
           apply IH. split; [done|].
           intros j hp' Hj Hl. apply (Hall (S j) hp'); [lia | done].
    + split.
      * intros [= <-]. split; [by exists hp | intros; lia].
      * intros [_ Hall]. destruct k as [|k]; [done|].
        specialize (Hall 0 hp). simpl in Hall. rewrite Hall in Hg; [done | lia | done].
Qed.

(** C10.  For a handle whose counter is live, whatever the counter's value:
    the polling loop of [Wait] exits at a poll exactly when the value it
    loads there is at most 0 (and at every earlier poll it was positive);
    [IsComplete] is true exactly when the value is 0; so with a negative
    value [Wait] returns at once while [IsComplete] is false. *)
Theorem Wait_returns_iff_nonpositive (h : TaskHandle) (l : loc) :
  m_Counter h = Some l ->
  (forall polls k,
     Wait h polls = Some k <->
     (exists hp, polls !! k = Some hp /\ (counter_load hp l <= 0)%Z)
     /\ (forall j hp, j < k -> polls !! j = Some hp ->
           (0 < counter_load hp l)%Z))
  /\ (forall hp, IsComplete h hp = true <-> counter_load hp l = 0%Z)
  /\ (forall hp later,
        (counter_load hp l < 0)%Z ->
        Wait h (hp :: later) = Some 0 /\ IsComplete h hp = false).
Proof.
  intros Hl. split_and!.
  - intros polls k. rewrite Wait_exits_at. split.
    + intros [(hp & Hk & Hg) Hall]. split.
      * exists hp. split; [done|]. by apply (Wait_guard_false_iff h l hp Hl).
      * intros j hp' Hj Hp. specialize (Hall j hp' Hj Hp).
        unfold Wait_guard in Hall. rewrite Hl in Hall. by apply Z.ltb_lt.
    + intros [(hp & Hk & Hg) Hall]. split.
      * exists hp. split; [done|]. by apply (Wait_guard_false_iff h l hp Hl).
      * intros j hp' Hj Hp. specialize (Hall j hp' Hj Hp).
        unfold Wait_guard. rewrite Hl. by apply Z.ltb_lt.
  - intros hp. unfold IsComplete. rewrite Hl. apply Z.eqb_eq.
  - intros hp later Hneg. unfold IsComplete. simpl.
    assert (Wait_guard h hp = false) as ->.
    { apply (Wait_guard_false_iff h l hp Hl). lia. }
    split; [done|]. rewrite Hl. apply Z.eqb_neq. lia.
Qed.

Lemma Wait_returns_iff_nonpositive_witness :
  let h := mkTaskHandle (Some 0) in
  let hp : Heap := [(-1)%Z] in
  m_Counter h = Some 0
  /\ (Wait h (hp :: []) = Some 0 /\ IsComplete h hp = false).
Proof.
  intros h hp. split; [reflexivity|].
  apply (Wait_returns_iff_nonpositive h 0 eq_refl). vm_compute. reflexivity.
Defined.

(** ** Scheduling without a scheduler *)

Lemma counter_load_new (hp : Heap) :
  counter_load (hp ++ [0%Z]) (length hp) = 0%Z.
Proof.
  unfold counter_load. rewrite lookup_app_r by lia.
  by rewrite Nat.sub_diag.
Qed.

Lemma Schedule_uninitialized_eq (function : option TaskFunction)
    (priority : TaskPriority) (draw : nat) (w : World) :
  s_Instance w = None ->
  Schedule function priority draw w
  = (mkTaskHandle (Some (length (heap w))),
     mkWorld None (heap w ++ [0%Z]) (invoked w) (submitted w) (completed w)).
Proof. unfold Schedule. by intros ->. Qed.

Lemma counter_load_app_l (hp extra : Heap) (l : loc) :
  l < length hp -> counter_load (hp ++ extra) l = counter_load hp l.
Proof. intros Hl. unfold counter_load. by rewrite lookup_app_l. Qed.

Lemma ScheduleBatch_uninitialized (functions : list (option TaskFunction))
    (priority : TaskPriority) :
  forall (draw : nat -> nat) (w : World),
    s_Instance w = None ->
    let '(handles, w') := ScheduleBatch functions priority draw w in
    length handles = length functions
    /\ s_Instance w' = None
    /\ invoked w' = invoked w
    /\ submitted w' = submitted w
    /\ completed w' = completed w
    /\ (exists extra, heap w' = heap w ++ extra)
    /\ Forall (fun h => exists l, m_Counter h = Some l
                       /\ length (heap w) <= l < length (heap w')
                       /\ counter_load (heap w') l = 0%Z) handles.
Proof.
  induction functions as [|func rest IH]; intros draw w Hw; simpl.
  - split_and!; try done. exists []. by rewrite app_nil_r.
  - rewrite (Schedule_uninitialized_eq _ _ _ _ Hw).
    set (w1 := mkWorld None _ _ _ _).
    specialize (IH (fun k => draw (S k)) w1 eq_refl).
    destruct (ScheduleBatch rest priority _ w1) as [handles w'].
    destruct IH as (Hlen & Hi & Hinv & Hsub & Hcom & [extra Hheap] & Hall).
    simpl in *. split_and!; try done; [by rewrite Hlen | |].
    + exists ([0%Z] ++ extra). by rewrite Hheap, <- app_assoc.
    + constructor.
      * exists (length (heap w)). split; [done|].
        rewrite Hheap, !length_app. simpl. split; [lia|].
        rewrite counter_load_app_l by (rewrite length_app; simpl; lia).
        apply counter_load_new.
      * eapply Forall_impl; [exact Hall|]. simpl.
        intros h (l & Hl & Hrange & Hload). exists l.
        rewrite length_app in Hrange. simpl in Hrange.
        split_and!; [done | lia | lia | done].
Qed.

(** C9.  While there is no scheduler (before [Initialize], after
    [Shutdown]), [Schedule] returns a handle on a fresh counter holding 0:
    [IsComplete] is true and [Wait] returns at its first poll.  Nothing is
    submitted and nothing is invoked; the state it leaves is the same
    whatever the callable, so nothing that happens later can run it.
    [ScheduleBatch] returns one such handle per callable. *)
Theorem Schedule_without_scheduler (function : option TaskFunction)
    (priority : TaskPriority) (draw : nat) (w : World) :
  s_Instance w = None ->
  (let '(h, w') := Schedule function priority draw w in
   (exists l, m_Counter h = Some l /\ counter_load (heap w') l = 0%Z)
   /\ IsComplete h (heap w') = true
   /\ (forall later, Wait h (heap w' :: later) = Some 0)
   /\ s_Instance w' = None
   /\ invoked w' = invoked w
   /\ submitted w' = submitted w
   /\ completed w' = completed w
   /\ (forall function' evs,
         run evs (snd (Schedule function' priority draw w)) = run evs w'))
  /\ (forall functions draws,
        let '(handles, w') := ScheduleBatch functions priority draws w in
        length handles = length functions
        /\ Forall (fun h => IsComplete h (heap w') = true
                            /\ forall later, Wait h (heap w' :: later) = Some 0)
             handles
        /\ s_Instance w' = None
        /\ invoked w' = invoked w
        /\ submitted w' = submitted w).
Proof.
  intros Hw. split.
  - rewrite (Schedule_uninitialized_eq _ _ _ _ Hw). simpl.
    pose proof (counter_load_new (heap w)) as Hload.
    split_and!; try done.
    + by exists (length (heap w)).
    + unfold IsComplete. simpl. by rewrite Hload.
    + intros later. unfold Wait_guard. simpl. by rewrite Hload.
    + intros function' evs. by rewrite (Schedule_uninitialized_eq _ _ _ _ Hw).
  - intros functions draws.
    pose proof (ScheduleBatch_uninitialized functions priority draws w Hw) as H.
    destruct (ScheduleBatch functions priority draws w) as [handles w'].
    destruct H as (Hlen & Hi & Hinv & Hsub & _ & _ & Hall).
    split_and!; try done.
    eapply Forall_impl; [exact Hall|]. simpl.
    intros h (l & Hl & _ & Hload).
    unfold IsComplete, Wait_guard. rewrite Hl, Hload. by split.
Qed.

Lemma Schedule_without_scheduler_witness :
  s_Instance World_initial = None
  /\ fst (Schedule (Some (UserFn 7)) High 3 World_initial)
     = mkTaskHandle (Some 0)
  /\ IsComplete (mkTaskHandle (Some 0))
       (heap (snd (Schedule (Some (UserFn 7)) High 3 World_initial))) = true.
Proof.
  split; [reflexivity|]. split; [reflexivity|].
  pose proof (Schedule_without_scheduler (Some (UserFn 7)) High 3
                World_initial eq_refl) as [H _].
  exact (proj1 (proj2 H)).
Defined.

(** ** Initialisation *)

Lemma UInt32_wrap_small (z : Z) : UInt32.in_range z -> UInt32.wrap z = z.
Proof. unfold UInt32.in_range, UInt32.wrap. intros H. by apply Z.mod_small. Qed.

Lemma resolve_thread_count_auto (hardware_concurrency : Z) :
  UInt32.in_range hardware_concurrency ->
  resolve_thread_count 0 hardware_concurrency
  = Z.max 1 (hardware_concurrency - 1).
Proof.
  unfold resolve_thread_count, UInt32.in_range, UInt32.modulus. intros H. simpl.
  destruct (Z.ltb_spec 1 hardware_concurrency).
  - unfold UInt32.sub. rewrite UInt32_wrap_small; [done|].
    unfold UInt32.in_range, UInt32.modulus. lia.
  - lia.
Qed.

Lemma InitializeInternal_workers (numThreads hardware_concurrency : Z) :
  let n := Z.to_nat (resolve_thread_count numThreads hardware_concurrency) in
  let ts := InitializeInternal numThreads hardware_concurrency TaskSystem_new in
  m_Workers ts = (fun i => mkWorker i AtEntry None) <$> seq 0 n
  /\ m_Queues ts = replicate n []
  /\ length (m_QueueMutexes ts) = n
  /\ m_Running ts = true.
Proof.
  intros n ts. unfold ts, InitializeInternal. simpl. fold n.
  split_and!; [done | | by rewrite length_replicate | done].
  by rewrite resize_nil.
Qed.

(** C7.  With [numThreads = 0], initialisation spawns as many worker
    threads as the hardware concurrency hint minus one, but at least one,
    whatever the hint (0 and 1 included), each with a queue of its own;
    [GetWorkerCount] then returns that number, and it returns 0 while there
    is no scheduler. *)
Theorem Initialize_auto_worker_count (hardware_concurrency : Z) :
  UInt32.in_range hardware_concurrency ->
  let n := Z.max 1 (hardware_concurrency - 1) in
  let ts := InitializeInternal 0 hardware_concurrency TaskSystem_new in
  m_Workers ts = (fun i => mkWorker i AtEntry None) <$> seq 0 (Z.to_nat n)
  /\ Z.of_nat (length (m_Workers ts)) = n
  /\ length (m_Queues ts) = length (m_Workers ts)
  /\ (forall w, s_Instance w = None ->
        s_Instance (Initialize 0 hardware_concurrency w) = Some ts
        /\ GetWorkerCount (Initialize 0 hardware_concurrency w) = n)
  /\ (forall w, s_Instance w = None -> GetWorkerCount w = 0%Z).
Proof.
  intros Hr n ts.
  destruct (InitializeInternal_workers 0 hardware_concurrency)
    as (Hw & Hq & _ & _).
  rewrite (resolve_thread_count_auto _ Hr) in Hw, Hq. fold n ts in Hw, Hq.
  assert (Z.of_nat (length (m_Workers ts)) = n) as Hlen.
  { rewrite Hw, length_fmap, length_seq. lia. }
  split_and!; [done | done | | |].
  - rewrite Hq, length_replicate, Hw, length_fmap, length_seq. done.
  - intros w Hnone. unfold GetWorkerCount, Initialize. rewrite Hnone.
    cbn [s_Instance set_instance]. fold ts.
    split; [done|]. rewrite Hlen. apply UInt32_wrap_small.
    unfold UInt32.in_range, UInt32.modulus in *. lia.
  - intros w Hnone. unfold GetWorkerCount. by rewrite Hnone.
Qed.

Lemma Initialize_auto_worker_count_witness :
  UInt32.in_range 0
  /\ GetWorkerCount (Initialize 0 0 World_initial) = 1%Z.
Proof.
  assert (UInt32.in_range 0) as Hr by (unfold UInt32.in_range, UInt32.modulus; lia).
  split; [exact Hr|].
  exact (proj2 (proj1 (proj2 (proj2 (proj2
           (Initialize_auto_worker_count 0 Hr)))) World_initial eq_refl)).
Defined.

(** ** One worker, no contention *)

Lemma run_app (evs evs' : list Event) (w : World) :
  run (evs ++ evs') w = run evs' (run evs w).
Proof. unfold run. by rewrite foldl_app. Qed.

Lemma run_replicate_add (n m : nat) (ev : Event) (w : World) :
  run (replicate (n + m) ev) w = run (replicate m ev) (run (replicate n ev) w).
Proof. by rewrite replicate_add, run_app. Qed.

(** With a single queue every draw selects queue 0. *)
Lemma step_schedule_single_queue (workers : list Worker) (q : Queue)
    (mutexes : list Mutex) (running : bool) (active : Z) (hp : Heap)
    (inv : list Call) (sub com : list Task)
    (function : option TaskFunction) (priority : TaskPriority) (draw : nat) :
  let t := mkTask function priority (mkTaskHandle (Some (length hp))) in
  step (mkWorld (Some (mkTaskSystem workers [q] mutexes running active))
          hp inv sub com)
       (EvSchedule function priority draw)
  = mkWorld
      (Some (mkTaskSystem workers [insert_by_priority t q] mutexes running
               (UInt32.add active 1)))
      (Increment (Handle t) (hp ++ [0%Z])) inv (sub ++ [t]) com.
Proof.
  intros t. unfold step, Schedule, ScheduleInternal.
  cbn [s_Instance m_Queues length]. by rewrite Nat.mod_1_r.
Qed.

Lemma TryStealTask_single_empty (draw : nat -> nat) (owns_lock : nat -> bool) :
  TryStealTask draw owns_lock [[]] = (None, [[]]).
Proof.
  unfold TryStealTask. cbn [length steal_attempts]. by rewrite Nat.mod_1_r.
Qed.

(** A lone worker whose queue is empty goes round its loop without running
    anything. *)
Lemma lone_worker_idles (t : option Task) (mutexes : list Mutex) (active : Z)
    (hp : Heap) (inv : list Call) (sub com : list Task) (ch : Chance) (n : nat) :
  let idle p :=
    mkWorld (Some (mkTaskSystem [mkWorker 0 p t] [[]] mutexes true active))
      hp inv sub com in
  forall p, p = AtLoopHead \/ p = AtTryPop \/ p = AtTrySteal ->
    exists p', (p' = AtLoopHead \/ p' = AtTryPop \/ p' = AtTrySteal)
      /\ run (replicate n (EvWorker 0 ch)) (idle p) = idle p'.
Proof.
  intros idle. induction n as [|n IH]; intros p Hp; [by exists p|].
  change (run (replicate (S n) ?ev) ?w) with (run (replicate n ev) (step w ev)).
  destruct Hp as [->|[->| ->]].
  - apply (IH AtTryPop). tauto.
  - apply (IH AtTrySteal). tauto.
  - assert (step (idle AtTrySteal) (EvWorker 0 ch) = idle AtLoopHead) as ->.
    { unfold idle, step, worker_step.
      cbn [s_Instance m_Workers lookup list_lookup pc m_Queues].
      by rewrite TryStealTask_single_empty. }
    apply (IH AtLoopHead). tauto.
Qed.

(** One worker, every lock free.  The worker has run for any length of time
    (or not yet started) when tasks A (Low), B (High) and C (Normal) are
    submitted in this order with no worker transition in between; then the
    worker runs.  If the worker's next action is [TryStealTask] (it has just
    found its queue empty), it takes the back of the only queue, its own:
    the order is A, B, C.  Otherwise it pops the front of its queue each
    time: the order is B, C, A.  However long the worker goes on, nothing
    else is invoked. *)
Lemma single_worker_order (a b c : nat) (hardware_concurrency : Z)
    (d1 d2 d3 : nat) (draws : nat -> nat) (k n : nat) :
  let worker := EvWorker 0 (uncontended draws) in
  let submissions :=
    [EvSchedule (Some (UserFn a)) Low d1;
     EvSchedule (Some (UserFn b)) High d2;
     EvSchedule (Some (UserFn c)) Normal d3] in
  let w :=
    run (EvInitialize 1 hardware_concurrency :: replicate k worker)
      World_initial in
  invoked (run (submissions ++ replicate (12 + n) worker) w)
  = match worker_pc w 0 with
    | Some AtTrySteal => [CallUser a; CallUser b; CallUser c]
    | _ => [CallUser b; CallUser c; CallUser a]
    end.
Proof.
  intros worker submissions w. unfold submissions.
  rewrite run_app, run_replicate_add.
  (* the state in which the submissions arrive *)
  assert (w = mkWorld
                (Some (mkTaskSystem [mkWorker 0 AtEntry None] [[]] [mutex] true 0))
                [] [] [] []
          \/ exists p, (p = AtLoopHead \/ p = AtTryPop \/ p = AtTrySteal)
               /\ w = mkWorld
                        (Some (mkTaskSystem
                                 [mkWorker 0 p
                                    (Some (mkTask None Normal
                                             (mkTaskHandle (Some 0))))]
                                 [[]] [mutex] true 0))
                        [0%Z] [] [] []) as Hstart.
  { unfold w. destruct k as [|k]; [by left | right].
    change (run (?e :: replicate (S k) ?ev) ?w0)
      with (run (replicate k ev) (step (step w0 e) ev)).
    apply (lone_worker_idles _ _ _ _ _ _ _ _ k AtLoopHead). tauto. }
  assert (forall w' calls,
            (exists p t mx act hp sub com,
               w' = mkWorld
                      (Some (mkTaskSystem [mkWorker 0 p t] [[]] mx true act))
                      hp calls sub com
               /\ (p = AtLoopHead \/ p = AtTryPop \/ p = AtTrySteal)) ->
            invoked (run (replicate n worker) w') = calls) as Hidle.
  { intros w' calls (p & t & mx & act & hp & sub & com & -> & Hp).
    unfold worker.
    by destruct (lone_worker_idles t mx act hp calls sub com
                   (uncontended draws) n p Hp) as (p' & _ & ->). }
  change (run [?e1; ?e2; ?e3] ?w0) with (step (step (step w0 e1) e2) e3).
  clearbody w.
  destruct Hstart as [-> | (p & Hp & ->)];
    [| destruct Hp as [-> | [-> | ->]]];
    rewrite !step_schedule_single_queue;
    match goal with
    | |- invoked (run _ ?w0) = _ =>
        let w' := eval vm_compute in w0 in change w0 with w'
    end;
    cbn [worker_pc s_Instance m_Workers mbind option_bind lookup list_lookup pc];
    apply Hidle; do 7 eexists; (split; [reflexivity | naive_solver]).
Qed.

(** C3.  One worker, every lock free, tasks A (Low), B (High) and C (Normal)
    submitted in this order: the worker does not always pop the front of its
    queue.  When the three tasks arrive just after the worker found its
    queue empty, its [TryStealTask] draws the only queue there is, its own,
    and takes the back: the callables are invoked in the order A, B, C. *)
Theorem single_worker_steals_from_its_own_queue (a b c : nat)
    (hardware_concurrency : Z) (d1 d2 d3 : nat) (draws : nat -> nat) (n : nat) :
  let worker := EvWorker 0 (uncontended draws) in
  let submissions :=
    [EvSchedule (Some (UserFn a)) Low d1;
     EvSchedule (Some (UserFn b)) High d2;
     EvSchedule (Some (UserFn c)) Normal d3] in
  let w :=
    run (EvInitialize 1 hardware_concurrency :: replicate 3 worker)
      World_initial in
  worker_pc w 0 = Some AtTrySteal
  /\ queued w = []
  /\ invoked (run (submissions ++ replicate (12 + n) worker) w)
     = [CallUser a; CallUser b; CallUser c].
Proof.
  intros worker submissions w.
  assert (worker_pc w 0 = Some AtTrySteal) as Hpc by reflexivity.
  split_and!; [done | done |].
  pose proof (single_worker_order a b c hardware_concurrency d1 d2 d3 draws 3 n)
    as Horder.
  cbv zeta in Horder. fold worker w in Horder. by rewrite Hpc in Horder.
Qed.

(** When the worker's next action is not a steal, the order is B, C, A. *)
Lemma single_worker_pops_by_priority (a b c : nat) (hardware_concurrency : Z)
    (d1 d2 d3 : nat) (draws : nat -> nat) (k n : nat) :
  let worker := EvWorker 0 (uncontended draws) in
  let submissions :=
    [EvSchedule (Some (UserFn a)) Low d1;
     EvSchedule (Some (UserFn b)) High d2;
     EvSchedule (Some (UserFn c)) Normal d3] in
  let w :=
    run (EvInitialize 1 hardware_concurrency :: replicate k worker)
      World_initial in
  worker_pc w 0 <> Some AtTrySteal ->
  invoked (run (submissions ++ replicate (12 + n) worker) w)
  = [CallUser b; CallUser c; CallUser a].
Proof.
  intros worker submissions w Hpc.
  pose proof (single_worker_order a b c hardware_concurrency d1 d2 d3 draws k n)
    as Horder.
  cbv zeta in Horder. fold worker w in Horder. unfold submissions.
  rewrite Horder. by destruct (worker_pc w 0) as [[]|].
Qed.

(** ** ParallelFor *)

Lemma index_range_nil (start end_ : Z) :
  (end_ <= start)%Z -> index_range start end_ = [].
Proof.
  intros H. unfold index_range.
  by replace (Z.to_nat (end_ - start)) with 0 by lia.
Qed.

Lemma index_range_app (start mid end_ : Z) :
  (start <= mid <= end_)%Z ->
  index_range start mid ++ index_range mid end_ = index_range start end_.
Proof.
  intros H. unfold index_range.
  replace (Z.to_nat (end_ - start))
    with (Z.to_nat (mid - start) + Z.to_nat (end_ - mid)) by lia.
  rewrite seq_app, fmap_app. f_equal. simpl.
  replace (seq (Z.to_nat (mid - start)) (Z.to_nat (end_ - mid)))
    with (Nat.add (Z.to_nat (mid - start)) <$> seq 0 (Z.to_nat (end_ - mid)))
    by (rewrite fmap_add_seq; f_equal; lia).
  rewrite <- list_fmap_compose.
  apply list_fmap_ext. intros _ k _. simpl. lia.
Qed.

Section BatchArithmetic.
Local Open Scope Z_scope.
Import ParallelFor.

Variables count batchSize : Z.
Hypothesis count_positive : 0 < count.
Hypothesis batchSize_positive : 0 < batchSize.
Hypothesis no_wrap : count + batchSize - 1 < UInt32.modulus.

Lemma ceil_div_bounds :
  (ceil_div count batchSize - 1) * batchSize < count
  /\ count <= ceil_div count batchSize * batchSize.
Proof.
  unfold ceil_div.
  pose proof (Z.div_mod (count + batchSize - 1) batchSize) as Hdm.
  pose proof (Z.mod_pos_bound (count + batchSize - 1) batchSize) as Hm.
  nia.
Qed.

Lemma ceil_div_positive : 0 < ceil_div count batchSize.
Proof. pose proof ceil_div_bounds. nia. Qed.

Lemma num_batches_no_wrap :
  num_batches count batchSize = ceil_div count batchSize.
Proof.
  unfold num_batches, ceil_div, UInt32.div, UInt32.sub, UInt32.add,
    UInt32.wrap.
  rewrite Zminus_mod_idemp_l, Z.mod_small; [done | lia].
Qed.

Lemma batch_bounds_no_wrap (batch : Z) :
  0 <= batch < ceil_div count batchSize ->
  batch_start batch batchSize = batch * batchSize
  /\ batch_end (batch * batchSize) batchSize count
     = Z.min ((batch + 1) * batchSize) count
  /\ batch * batchSize < count.
Proof.
  intros Hb. pose proof ceil_div_bounds as [Hlo Hhi].
  assert (batch * batchSize < count) as Hlt by nia.
  unfold batch_start, batch_end, UInt32.mul, UInt32.add, UInt32.wrap.
  rewrite !Z.mod_small by (unfold UInt32.modulus in *; nia).
  split_and!; [done | f_equal; lia | done].
Qed.

(** Run one after the other in the order of their submission, the batches
    call the indices of [0, count) in ascending order. *)
Lemma batch_functions_cover (remaining : nat) (batch : Z) :
  0 <= batch ->
  batch + Z.of_nat remaining = ceil_div count batchSize ->
  concat (invoke <$> batch_functions remaining batch count batchSize)
  = CallIndex <$> index_range (Z.min (batch * batchSize) count) count.
Proof.
  revert batch. pose proof ceil_div_bounds as [Hlo Hhi].
  induction remaining as [|remaining IH]; intros batch Hb Hsum.
  - simpl. rewrite index_range_nil; [done | nia].
  - destruct (batch_bounds_no_wrap batch) as (Hs & He & Hlt); [lia|].
    cbn [batch_functions fmap list_fmap concat invoke]. rewrite Hs, He.
    change (list_fmap _ _ invoke) with (fmap (M:=list) invoke).
    rewrite IH by lia. rewrite <- fmap_app. f_equal.
    rewrite (Z.min_l (batch * batchSize)) by lia.
    apply index_range_app. nia.
Qed.

(** Every batch is a non-empty sub-range of [0, count) of at most
    [batchSize] indices, and all but the last have exactly [batchSize]. *)
Lemma batch_functions_shape (remaining : nat) (batch : Z) :
  0 <= batch ->
  batch + Z.of_nat remaining = ceil_div count batchSize ->
  forall (k : nat) (f : TaskFunction),
    batch_functions remaining batch count batchSize !! k = Some f ->
    exists start end_,
      f = BatchFn start end_
      /\ start = (batch + Z.of_nat k) * batchSize
      /\ 0 <= start < end_ /\ end_ <= count
      /\ end_ - start <= batchSize
      /\ ((S k < remaining)%nat -> end_ - start = batchSize)
      /\ ((S k = remaining)%nat -> end_ = count).
Proof.
  revert batch. pose proof ceil_div_bounds as [Hlo Hhi].
  induction remaining as [|remaining IH]; intros batch Hb Hsum k f Hk;
    [done|].
  destruct k as [|k].
  - destruct (batch_bounds_no_wrap batch) as (Hs & He & Hlt); [lia|].
    simpl in Hk. injection Hk as <-. rewrite Hs, He.
    eexists _, _. split; [done|]. split; [f_equal; lia|].
    split_and!; try nia.
  - simpl in Hk. apply IH in Hk as (start & end_ & -> & Hst & Hrest); [|lia..].
    exists start, end_. split; [done|]. split; [lia|].
    destruct Hrest as (? & ? & ? & Hfull & Hlast).
    split_and!; lia.
Qed.

Lemma batch_functions_length (remaining : nat) (batch : Z) :
  length (batch_functions remaining batch count batchSize) = remaining.
Proof.
  revert batch. induction remaining as [|remaining IH]; intros batch;
    simpl; [done | by rewrite IH].
Qed.
End BatchArithmetic.

Lemma Schedule_initialized (function : option TaskFunction)
    (priority : TaskPriority) (draw : nat) (ts : TaskSystem) (w : World) :
  s_Instance w = Some ts ->
  exists ts',
    let h := mkTaskHandle (Some (length (heap w))) in
    let t := mkTask function priority h in
    Schedule function priority draw w
    = (h, mkWorld (Some ts') (Increment h (heap w ++ [0%Z])) (invoked w)
            (submitted w ++ [t]) (completed w))
    /\ m_Workers ts' = m_Workers ts
    /\ m_Queues ts'
       = PushTask t (draw mod length (m_Queues ts)) (m_Queues ts)
    /\ m_Running ts' = m_Running ts.
Proof.
  intros Hts. unfold Schedule, ScheduleInternal. rewrite Hts. simpl.
  eexists. split; [reflexivity|]. done.
Qed.

Lemma submit_batches_submits (count batchSize : Z) (remaining : nat) :
  forall (batch : Z) (draw : nat -> nat) (w : World),
    is_Some (s_Instance w) ->
    exists tasks,
      let '(handles, w') :=
        ParallelFor.submit_batches remaining batch count batchSize draw w in
      submitted w' = submitted w ++ tasks
      /\ Function <$> tasks
         = Some <$> ParallelFor.batch_functions remaining batch count batchSize
      /\ handles = Handle <$> tasks
      /\ invoked w' = invoked w
      /\ completed w' = completed w
      /\ is_Some (s_Instance w').
Proof.
  induction remaining as [|remaining IH]; intros batch draw w [ts Hts].
  - exists []. simpl. rewrite app_nil_r. by split_and!.
  - cbn [ParallelFor.submit_batches ParallelFor.batch_functions].
    set (start := ParallelFor.batch_start batch batchSize).
    set (end_ := ParallelFor.batch_end start batchSize count).
    destruct (Schedule_initialized (Some (BatchFn start end_)) Normal (draw 0)
                ts w Hts) as (ts' & -> & _).
    set (w1 := mkWorld (Some ts') _ _ _ _).
    destruct (IH (batch + 1)%Z (fun k => draw (S k)) w1) as [tasks Htasks];
      [by exists ts'|].
    destruct (ParallelFor.submit_batches remaining _ count batchSize _ w1)
      as [handles w'].
    destruct Htasks as (Hsub & Hfun & Hh & Hinv & Hcom & Hinst).
    exists (mkTask (Some (BatchFn start end_)) Normal
              (mkTaskHandle (Some (length (heap w)))) :: tasks).
    split_and!; [| | | done..].
    + rewrite Hsub. simpl. by rewrite <- app_assoc.
    + by rewrite !fmap_cons, Hfun.
    + by rewrite fmap_cons, Hh.
Qed.

Lemma GetWorkerCount_nonzero (w : World) :
  GetWorkerCount w <> 0%Z -> is_Some (s_Instance w).
Proof. unfold GetWorkerCount. destruct (s_Instance w); [by eexists | done]. Qed.

(** What [Execute] does while its arithmetic stays within 32 bits. *)
Lemma Execute_within_range (count batchSize : Z) (draw : nat -> nat) (w : World) :
  let workerCount := GetWorkerCount w in
  let size := ParallelFor.effective_batch_size count workerCount batchSize in
  (count = 0%Z -> ParallelFor.Execute count batchSize draw w = ([], w))
  /\ ((0 < count)%Z -> workerCount = 0%Z ->
      ParallelFor.Execute count batchSize draw w
      = ([], mkWorld (s_Instance w) (heap w)
               (invoked w ++ (CallIndex <$> index_range 0 count))
               (submitted w) (completed w)))
  /\ ((0 < count)%Z -> workerCount <> 0%Z ->
      (0 < size)%Z -> (count + size - 1 < UInt32.modulus)%Z ->
      exists tasks,
        let '(handles, w') := ParallelFor.Execute count batchSize draw w in
        submitted w' = submitted w ++ tasks
        /\ handles = Handle <$> tasks
        /\ invoked w' = invoked w
        /\ Z.of_nat (length tasks) = ParallelFor.ceil_div count size
        /\ (exists fs,
              Function <$> tasks = Some <$> fs
              /\ concat (invoke <$> fs) = CallIndex <$> index_range 0 count
              /\ forall (k : nat) f, fs !! k = Some f ->
                   exists start end_,
                     f = BatchFn start end_
                     /\ start = (Z.of_nat k * size)%Z
                     /\ (0 <= start < end_)%Z /\ (end_ <= count)%Z
                     /\ (end_ - start <= size)%Z
                     /\ (S k < length fs -> (end_ - start)%Z = size)
                     /\ (S k = length fs -> end_ = count))).
Proof.
  intros workerCount size. unfold ParallelFor.Execute. fold workerCount.
  split_and!.
  - by intros ->.
  - intros Hc ->. by destruct (Z.eqb_spec count 0); [lia|].
  - intros Hc Hw Hsize Hwrap.
    destruct (Z.eqb_spec count 0); [lia|].
    destruct (Z.eqb_spec workerCount 0); [done|]. fold size.
    rewrite (num_batches_no_wrap count size Hc Hsize Hwrap).
    pose proof (ceil_div_positive count size Hc Hsize Hwrap) as Hpos.
    set (remaining := Z.to_nat (ParallelFor.ceil_div count size)).
    destruct (submit_batches_submits count size remaining 0 draw w
                (GetWorkerCount_nonzero w Hw)) as [tasks Htasks].
    exists tasks.
    destruct (ParallelFor.submit_batches remaining 0 count size draw w)
      as [handles w'].
    destruct Htasks as (Hsub & Hfun & Hh & Hinv & _ & _).
    assert (length tasks = remaining) as Hlen.
    { rewrite <- (length_fmap Function), Hfun, length_fmap.
      apply batch_functions_length. }
    split_and!; [done | done | done | lia |].
    exists (ParallelFor.batch_functions remaining 0 count size).
    split_and!; [done | |].
    + rewrite (batch_functions_cover count size Hc Hsize Hwrap) by lia.
      do 2 f_equal. lia.
    + intros k f Hk. rewrite batch_functions_length.
      destruct (batch_functions_shape count size Hc Hsize Hwrap remaining 0
                  ltac:(lia) ltac:(lia) k f Hk)
        as (start & end_ & ? & ? & ?).
      exists start, end_. split_and!; [done | lia | tauto..].
Qed.

(** The default batch size, while [workerCount * 4] stays within 32 bits. *)
Lemma effective_batch_size_default (count workerCount : Z) :
  (0 < workerCount)%Z -> (workerCount * 4 < UInt32.modulus)%Z ->
  ParallelFor.effective_batch_size count workerCount 0
  = Z.max 1 (count / (workerCount * 4)).
Proof.
  intros Hw Hr. unfold ParallelFor.effective_batch_size, UInt32.div, UInt32.mul.
  simpl. rewrite UInt32_wrap_small; [done|].
  unfold UInt32.in_range. lia.
Qed.

Example Execute_1000_with_4_workers (draw : nat -> nat) :
  let w := Initialize 4 0 World_initial in
  GetWorkerCount w = 4%Z
  /\ ParallelFor.effective_batch_size 1000 4 0 = 62%Z
  /\ ParallelFor.num_batches 1000 62 = 17%Z
  /\ length (fst (ParallelFor.Execute 1000 0 draw w)) = 17.
Proof.
  intros w. split_and!; [reflexivity..|].
  destruct (Execute_within_range 1000 0 draw w) as (_ & _ & H).
  destruct H as [tasks Htasks]; [done..|].
  destruct (ParallelFor.Execute 1000 0 draw w) as [handles w'].
  destruct Htasks as (_ & -> & _ & Hlen & _). simpl.
  rewrite length_fmap. change (ParallelFor.ceil_div _ _) with 17%Z in Hlen. lia.
Qed.

(** C1.  The parallel branch of [Execute] does not visit [0, count) when
    [count + batchSize - 1] passes [2^32]: with one worker,
    [Execute(2, fn, 4294967295)] computes zero batches, submits no task and
    invokes [fn] for no index.  The serial branch, taken without workers,
    calls [fn(0)] and [fn(1)] on the same arguments. *)
Theorem Execute_huge_batch_size_visits_nothing (draw : nat -> nat) :
  let w := Initialize 1 0 World_initial in
  GetWorkerCount w = 1%Z
  /\ ParallelFor.num_batches 2 4294967295 = 0%Z
  /\ ParallelFor.Execute 2 4294967295 draw w = ([], w)
  /\ invoked (snd (ParallelFor.Execute 2 4294967295 draw World_initial))
     = [CallIndex 0; CallIndex 1].
Proof. intros w. by split_and!. Qed.

(** C5.  With the default batch size and one worker, [Execute(4000000000, fn)]
    uses the batch size [max(1, count / (workerCount * 4)) = 1000000000], for
    which the rounded-up quotient is 4 batches; but [count + batchSize - 1]
    passes [2^32] and the code computes zero batches and submits no task. *)
Theorem Execute_default_batch_count_overflows (draw : nat -> nat) :
  let w := Initialize 1 0 World_initial in
  let count := 4000000000%Z in
  GetWorkerCount w = 1%Z
  /\ ParallelFor.effective_batch_size count 1 0 = Z.max 1 (count / (1 * 4))
  /\ ParallelFor.effective_batch_size count 1 0 = 1000000000%Z
  /\ ParallelFor.ceil_div count 1000000000 = 4%Z
  /\ ParallelFor.num_batches count 1000000000 = 0%Z
  /\ ParallelFor.Execute count 0 draw w = ([], w).
Proof. intros w count. by split_and!. Qed.

(** ** Accounting of the scheduler's transitions *)

Lemma insert_by_priority_perm (t : Task) (q : Queue) :
  insert_by_priority t q ≡ₚ t :: q.
Proof.
  induction q as [|it rest IH]; simpl; [done|].
  destruct (_ <=? _)%Z; [|done]. rewrite IH. apply Permutation_swap.
Qed.

Lemma concat_insert_perm (queues : list Queue) (i : nat) (q : Queue) :
  queues !! i = Some q ->
  exists others,
    concat queues ≡ₚ q ++ others
    /\ forall q', concat (<[i := q']> queues) ≡ₚ q' ++ others.
Proof.
  intros Hq. exists (concat (take i queues) ++ concat (drop (S i) queues)).
  pose proof (lookup_lt_Some _ _ _ Hq) as Hi.
  split.
  - rewrite <- (take_drop_middle queues i q Hq) at 1.
    rewrite concat_app. simpl. apply Permutation_app_swap_app.
  - intros q'. rewrite insert_take_drop by done.
    rewrite concat_app. simpl. apply Permutation_app_swap_app.
Qed.

Lemma running_insert_perm (workers : list Worker) (i : nat) (wk : Worker) :
  workers !! i = Some wk ->
  exists others,
    workers ≫= held ≡ₚ held wk ++ others
    /\ forall wk', <[i := wk']> workers ≫= held ≡ₚ held wk' ++ others.
Proof.
  intros Hwk.
  exists ((take i workers ≫= held) ++ (drop (S i) workers ≫= held)).
  pose proof (lookup_lt_Some _ _ _ Hwk) as Hi.
  split.
  - rewrite <- (take_drop_middle workers i wk Hwk) at 1.
    rewrite bind_app, bind_cons. apply Permutation_app_swap_app.
  - intros wk'. rewrite insert_take_drop by done.
    rewrite bind_app, bind_cons. apply Permutation_app_swap_app.
Qed.

Lemma PushTask_cases (t : Task) (i : nat) (queues : list Queue) :
  PushTask t i queues
  = match queues !! i with
    | Some q => <[i := insert_by_priority t q]> queues
    | None => queues
    end.
Proof.
  unfold PushTask. apply list_eq. intros j. rewrite list_lookup_alter.
  destruct (queues !! i) as [q|] eqn:Hq.
  - pose proof (lookup_lt_Some _ _ _ Hq).
    rewrite list_lookup_insert. repeat case_decide; subst; try lia; done.
  - case_decide; subst; [by rewrite Hq | done].
Qed.

Lemma pending_PushTask (t : Task) (i : nat) (queues : list Queue) :
  concat (PushTask t i queues) ⊆+ t :: concat queues.
Proof.
  rewrite PushTask_cases. destruct (queues !! i) as [q|] eqn:Hq.
  - destruct (concat_insert_perm queues i q Hq) as (others & Hold & Hnew).
    by rewrite Hnew, Hold, insert_by_priority_perm.
  - by apply submseteq_cons.
Qed.

Ltac reduce_pending :=
  unfold pending, running;
  cbn [s_Instance m_Workers m_Queues set_worker set_queues set_instance
       Task_new TaskHandle_new].

Lemma worker_step_effect (ch : Chance) (slot : nat) (wk : Worker)
    (ts : TaskSystem) (w : World) :
  s_Instance w = Some ts ->
  m_Workers ts !! slot = Some wk ->
  Effect w (worker_step ch slot wk ts w).
Proof.
  intros Hts Hwk.
  destruct (running_insert_perm _ _ _ Hwk) as (others & Hold & Hnew).
  assert (pending w = concat (m_Queues ts) ++ (m_Workers ts ≫= held)) as Hpend.
  { unfold pending. by rewrite Hts. }
  unfold worker_step.
  destruct (pc wk) eqn:Hpc.
  - (* AtEntry *)
    apply effect_quiet; [by right | done..|].
    rewrite Hpend. reduce_pending. rewrite Hnew, Hold.
    unfold held. cbn [pc]. by rewrite Hpc.
  - (* AtLoopHead *)
    apply effect_quiet; [by left | done..|].
    rewrite Hpend. reduce_pending. rewrite Hnew, Hold.
    unfold held. cbn [pc]. rewrite Hpc. by destruct (m_Running ts).
  - (* AtTryPop *)
    destruct (TryPopTask_cases (own_lock ch) (threadIndex wk) (m_Queues ts))
      as [-> | (front & rest & _ & Hq & ->)].
    + apply effect_quiet; [by left | done..|].
      rewrite Hpend. reduce_pending. rewrite Hnew, Hold.
      unfold held. cbn [pc]. by rewrite Hpc.
    + destruct (concat_insert_perm _ _ _ Hq) as (rest_q & Hqold & Hqnew).
      apply effect_quiet; [by left | done..|].
      rewrite Hpend. reduce_pending. rewrite Hnew, Hold, Hqnew, Hqold.
      unfold held. cbn [pc task option_list]. rewrite Hpc.
      apply Permutation_submseteq. solve_Permutation.
  - (* AtTrySteal *)
    destruct (TryStealTask_cases (steal_draw ch) (steal_lock ch) (m_Queues ts))
      as [[-> _] | (k & q & back & _ & _ & _ & Hq & ->)].
    + apply effect_quiet; [by left | done..|].
      rewrite Hpend. reduce_pending. rewrite Hnew, Hold.
      unfold held. cbn [pc]. by rewrite Hpc.
    + destruct (concat_insert_perm _ _ _ Hq) as (rest_q & Hqold & Hqnew).
      apply effect_quiet; [by left | done..|].
      rewrite Hpend. reduce_pending. rewrite Hnew, Hold, Hqnew, Hqold.
      unfold held. cbn [pc task option_list]. rewrite Hpc.
      apply Permutation_submseteq. solve_Permutation.
  - (* AtExecute *)
    destruct (task wk) as [t|] eqn:Htask.
    + apply (effect_complete _ _ t); [|done..].
      rewrite Hpend. reduce_pending. rewrite Hnew, Hold.
      unfold held. cbn [pc task]. rewrite Hpc, Htask. cbn [option_list].
      solve_Permutation.
    + by apply effect_quiet; [left|..].
  - (* Exited *)
    by apply effect_quiet; [left|..].
Qed.

Lemma pending_initialized (numThreads hardware_concurrency : Z) :
  concat (m_Queues
            (InitializeInternal numThreads hardware_concurrency TaskSystem_new))
  ++ running (InitializeInternal numThreads hardware_concurrency TaskSystem_new)
  = [].
Proof.
  destruct (InitializeInternal_workers numThreads hardware_concurrency)
    as (Hw & Hq & _).
  unfold running. rewrite Hw, Hq.
  generalize (Z.to_nat (resolve_thread_count numThreads hardware_concurrency)).
  intros n. assert (concat (replicate n ([] : list Task)) = []) as ->.
  { by induction n. }
  cbn [app]. generalize 0. induction n as [|n IH]; intros s; [done|].
  cbn [seq]. rewrite fmap_cons, bind_cons. apply IH.
Qed.

Lemma step_effect (w : World) (ev : Event) : Effect w (step w ev).
Proof.
  destruct ev as [numThreads hc | | | function priority draw | slot ch];
    cbn [step].
  - unfold Initialize. destruct (s_Instance w) eqn:Hts.
    + by apply effect_quiet; [left|..].
    + apply effect_quiet; [by left | done..|].
      unfold pending at 1. cbn [s_Instance set_instance].
      rewrite pending_initialized. apply submseteq_nil_l.
  - unfold Shutdown_signal. destruct (s_Instance w) as [ts|] eqn:Hts.
    + apply effect_quiet; [by left | done..|].
      unfold pending. by rewrite Hts.
    + by apply effect_quiet; [left|..].
  - unfold Shutdown_join. destruct (s_Instance w) as [ts|] eqn:Hts.
    + destruct (negb (m_Running ts) && all_joined ts).
      * apply effect_quiet; [by left | done..|].
        unfold pending at 1. cbn [s_Instance set_instance].
        apply submseteq_nil_l.
      * by apply effect_quiet; [left|..].
    + by apply effect_quiet; [left|..].
  - destruct (s_Instance w) as [ts|] eqn:Hts.
    + destruct (Schedule_initialized function priority draw ts w Hts)
        as (ts' & -> & Hw' & Hq' & _). cbn [snd].
      apply (effect_submit _ _
               (mkTask function priority
                  (mkTaskHandle (Some (length (heap w)))))); [done..|].
      unfold pending. rewrite Hts. cbn [s_Instance]. unfold running.
      rewrite Hw', Hq'.
      etrans; [apply submseteq_app; [apply pending_PushTask | done]|done].
    + rewrite (Schedule_uninitialized_eq _ _ _ _ Hts). cbn [snd].
      apply effect_quiet; [by right | done..|].
      unfold pending. by rewrite Hts.
  - destruct (s_Instance w) as [ts|] eqn:Hts; [|by apply effect_quiet; [left|..]].
    destruct (m_Workers ts !! slot) as [wk|] eqn:Hwk;
      [|by apply effect_quiet; [left|..]].
    by apply worker_step_effect.
Qed.

(** *** The accounts stay in order *)

Lemma NoDup_submseteq_inv {A} (l k : list A) : l ⊆+ k -> NoDup k -> NoDup l.
Proof.
  intros [extra Hp]%submseteq_Permutation Hk. rewrite Hp in Hk.
  by apply NoDup_app in Hk as [? _].
Qed.

Lemma NoDup_fmap_elem_inj {A B} (f : A -> B) (l : list A) (x y : A) :
  NoDup (f <$> l) -> x ∈ l -> y ∈ l -> f x = f y -> x = y.
Proof.
  intros Hnd [i Hi]%list_elem_of_lookup [j Hj]%list_elem_of_lookup Hxy.
  assert (i = j) as ->; [|congruence].
  apply (NoDup_lookup (f <$> l) i j (f x) Hnd).
  - by rewrite list_lookup_fmap, Hi.
  - by rewrite list_lookup_fmap, Hj, Hxy.
Qed.

Lemma counter_load_alloc (hp : Heap) (l : loc) :
  counter_load (hp ++ [0%Z]) l = counter_load hp l.
Proof.
  unfold counter_load. destruct (decide (l < length hp)).
  - by rewrite lookup_app_l.
  - rewrite (lookup_ge_None_2 hp) by lia.
    rewrite lookup_app_r by lia.
    by destruct (l - length hp) as [|[|?]].
Qed.

Lemma counter_load_alter_ne (f : Z -> Z) (hp : Heap) (l l' : loc) :
  l <> l' -> counter_load (alter f l hp) l' = counter_load hp l'.
Proof. intros H. unfold counter_load. by rewrite list_lookup_alter_ne. Qed.

Lemma counter_load_alter_eq (f : Z -> Z) (hp : Heap) (l : loc) :
  l < length hp -> counter_load (alter f l hp) l = f (counter_load hp l).
Proof.
  intros [c Hc]%lookup_lt_is_Some. unfold counter_load.
  by rewrite list_lookup_alter_eq, Hc.
Qed.

Lemma Consistent_initial : Consistent World_initial.
Proof.
  split; simpl.
  - by intros t ?%elem_of_nil.
  - constructor.
  - constructor.
  - by intros t ?%elem_of_nil.
  - intros l. right. split; [done|]. by intros t ?%elem_of_nil.
  - done.
Qed.

Lemma Effect_consistent (w w' : World) :
  Consistent w -> Effect w w' -> Consistent w'.
Proof.
  intros [Halloc Hsd Hld Hls Hcm Hinv]
    [Hheap Hsub Hcom Hinvk Hpend
    | t Ht Hheap Hsub Hcom Hinvk Hpend
    | t Hpend Hheap Hsub Hcom Hinvk].
  - (* quiet *)
    split; rewrite ?Hsub, ?Hcom, ?Hinvk; [| done | | | | done].
    + intros t Ht. destruct (Halloc t Ht) as (l & Hl & Hlt).
      exists l. split; [done|].
      destruct Hheap as [-> | ->]; [done | rewrite length_app; simpl; lia].
    + eapply NoDup_submseteq_inv; [|exact Hld].
      by apply fmap_submseteq, submseteq_skips_l.
    + intros t Ht. apply Hls. apply elem_of_app in Ht as [Ht|Ht];
        apply elem_of_app; [by left | right].
      by eapply elem_of_submseteq.
    + intros l.
      assert (counter_load (heap w') l = counter_load (heap w) l) as ->.
      { destruct Hheap as [-> | ->]; [done | apply counter_load_alloc]. }
      unfold all_completed. rewrite Hsub, Hcom. apply Hcm.
  - (* submit *)
    assert (forall u, u ∈ submitted w ->
              Handle u <> mkTaskHandle (Some (length (heap w)))) as Hfresh.
    { intros u Hu Heq. destruct (Halloc u Hu) as (l & Hl & Hlt).
      rewrite Hl in Heq. injection Heq as ->. lia. }
    assert (length (heap w') = S (length (heap w))) as Hlen.
    { rewrite Hheap, Ht. unfold Increment. simpl.
      rewrite length_alter, length_app. simpl. lia. }
    assert (forall l, l <> length (heap w) ->
              counter_load (heap w') l = counter_load (heap w) l) as Hother.
    { intros l Hl. rewrite Hheap, Ht. unfold Increment. simpl.
      rewrite counter_load_alter_ne by done. apply counter_load_alloc. }
    assert (counter_load (heap w') (length (heap w)) = 1%Z) as Hnew.
    { rewrite Hheap, Ht. unfold Increment. simpl.
      rewrite counter_load_alter_eq by (rewrite length_app; simpl; lia).
      by rewrite counter_load_new. }
    split; rewrite ?Hsub, ?Hcom, ?Hinvk; [| | | | | done].
    + intros u [Hu| ->%list_elem_of_singleton]%elem_of_app.
      * destruct (Halloc u Hu) as (l & Hl & Hlt). exists l. split; [done|lia].
      * exists (length (heap w)). split; [done | lia].
    + rewrite fmap_app. apply NoDup_app. split_and!; [done | | apply NoDup_singleton].
      intros h [u [-> Hu]]%list_elem_of_fmap Hh.
      rewrite list_fmap_singleton in Hh. apply list_elem_of_singleton in Hh.
      apply (Hfresh u Hu). by rewrite Hh.
    + eapply (NoDup_submseteq_inv _ (Handle <$> (t :: (completed w ++ pending w)))).
      * apply fmap_submseteq. etrans; [by apply submseteq_skips_l|].
        apply Permutation_submseteq. solve_Permutation.
      * rewrite fmap_cons. apply NoDup_cons. split; [|done].
        intros [u [Heq Hu]]%list_elem_of_fmap.
        apply (Hfresh u); [by apply Hls | by rewrite <- Heq].
    + intros u Hu. apply elem_of_app.
      apply elem_of_app in Hu as [Hu|Hu].
      * left. apply Hls, elem_of_app. by left.
      * apply (elem_of_submseteq _ _ _ Hu) in Hpend.
        apply elem_of_cons in Hpend as [->|Hp]; [right; by left|].
        left. apply Hls, elem_of_app. by right.
    + intros l. unfold all_completed. rewrite Hsub, Hcom.
      destruct (decide (l = length (heap w))) as [->|Hl].
      * left. split; [done|]. exists t. split_and!; [| done |].
        -- apply elem_of_app. right. by left.
        -- intros Hc. apply (Hfresh t); [|done].
           apply Hls, elem_of_app. by left.
      * rewrite Hother by done.
        destruct (Hcm l) as [[Hone (u & Hu & Hh & Hnc)] | [Hzero Hall]].
        -- left. split; [done|]. exists u. split_and!; [|done..].
           apply elem_of_app. by left.
        -- right. split; [done|].
           intros u [Hu| ->%list_elem_of_singleton]%elem_of_app Hh.
           ++ by apply Hall.
           ++ rewrite Ht in Hh. injection Hh as ?. lia.
  - (* complete *)
    assert (t ∈ pending w) as Htp by (rewrite Hpend; by left).
    assert (t ∈ submitted w) as Hts by (apply Hls, elem_of_app; by right).
    destruct (Halloc t Hts) as (l0 & Hl0 & Hlt0).
    assert (completed w ++ pending w ≡ₚ t :: completed w ++ pending w') as Hperm.
    { rewrite Hpend. solve_Permutation. }
    assert (t ∉ completed w) as Hnc.
    { intros Hc. rewrite Hperm, fmap_cons in Hld.
      apply NoDup_cons in Hld as [Hnot _]. apply Hnot.
      apply list_elem_of_fmap. exists t. split; [done|].
      apply elem_of_app. by left. }
    assert (counter_load (heap w) l0 = 1%Z) as Hone.
    { destruct (Hcm l0) as [[? _] | [_ Hall]]; [done|].
      exfalso. apply Hnc. by apply Hall. }
    split; rewrite ?Hsub, ?Hcom, ?Hinvk.
    + intros u Hu. destruct (Halloc u Hu) as (l & Hl & Hlt).
      exists l. split; [done|].
      rewrite Hheap. unfold Decrement. rewrite Hl0. cbn [m_Counter].
      by rewrite length_alter.
    + done.
    + rewrite <- app_assoc. simpl.
      assert (completed w ++ t :: pending w' ≡ₚ completed w ++ pending w)
        as ->; [|done].
      rewrite Hperm. solve_Permutation.
    + intros u Hu. apply Hls. rewrite Hperm.
      rewrite <- app_assoc in Hu. simpl in Hu.
      revert Hu. rewrite !elem_of_app, !elem_of_cons, elem_of_app. tauto.
    + intros l. unfold all_completed. rewrite Hsub, Hcom.
      rewrite Hheap. unfold Decrement. rewrite Hl0. cbn [m_Counter].
      destruct (decide (l = l0)) as [->|Hl].
      * right. rewrite counter_load_alter_eq, Hone by done.
        split; [done|]. intros u Hu Hh. apply elem_of_app. right.
        apply list_elem_of_singleton.
        apply (NoDup_fmap_elem_inj Handle (submitted w)); [done..|congruence].
      * rewrite counter_load_alter_ne by done.
        destruct (Hcm l) as [[Hl1 (u & Hu & Hh & Hunc)] | [Hzero Hall]].
        -- left. split; [done|]. exists u. split_and!; [done..|].
           intros [Hc| ->%list_elem_of_singleton]%elem_of_app; [done|].
           rewrite Hl0 in Hh. injection Hh as ?. lia.
        -- right. split; [done|]. intros u Hu Hh.
           apply elem_of_app. left. by apply Hall.
    + rewrite bind_app, Hinv. f_equal. simpl. by rewrite app_nil_r.
Qed.

Lemma run_consistent (evs : list Event) (w : World) :
  Consistent w -> Consistent (run evs w).
Proof.
  revert w. induction evs as [|ev evs IH]; intros w Hw; [done|].
  apply IH. eapply Effect_consistent; [exact Hw | apply step_effect].
Qed.

(** C4.  In every state the scheduler reaches (between the atomic sections
    of its code, under any interleaving of submissions, worker transitions,
    initialisations and shutdowns), the counter behind any handle is never
    negative (it is 0 or 1), and it is 0 exactly when every task submitted
    with that handle has completed. *)
Theorem handle_counter_tracks_completion (evs : list Event) (l : loc) :
  let w := run evs World_initial in
  (0 <= counter_load (heap w) l <= 1)%Z
  /\ (counter_load (heap w) l = 0%Z <-> all_completed (mkTaskHandle (Some l)) w).
Proof.
  intros w.
  pose proof (run_consistent evs World_initial Consistent_initial) as Hc.
  fold w in Hc.
  destruct (counters_match w Hc l) as [[Hone (t & Ht & Hh & Hnc)] | [Hzero Hall]].
  - rewrite Hone. split; [lia|]. split; [lia|].
    intros Hall. exfalso. by apply Hnc, Hall.
  - rewrite Hzero. split; [lia|]. by split.
Qed.

(** *** Shutdown *)

(** A task that was submitted and is neither pending nor completed. *)
Lemma dropped_stays_dropped (t : Task) (w w' : World) :
  Consistent w -> Effect w w' ->
  t ∈ submitted w ->
  Handle t ∉ Handle <$> (completed w ++ pending w) ->
  t ∈ submitted w'
  /\ Handle t ∉ Handle <$> (completed w' ++ pending w').
Proof.
  intros Hc [Hheap Hsub Hcom Hinvk Hpend
            | u Hu Hheap Hsub Hcom Hinvk Hpend
            | u Hpend Hheap Hsub Hcom Hinvk] Ht Hnot;
    rewrite ?Hsub, ?Hcom.
  - split; [done|]. intros Hin. apply Hnot.
    eapply elem_of_submseteq; [exact Hin|].
    by apply fmap_submseteq, submseteq_skips_l.
  - split; [apply elem_of_app; by left|]. intros Hin.
    assert (Handle t ∈ Handle <$> (u :: (completed w ++ pending w))) as Hin'.
    { eapply elem_of_submseteq; [exact Hin|].
      apply fmap_submseteq. etrans; [by apply submseteq_skips_l|].
      apply Permutation_submseteq. solve_Permutation. }
    rewrite fmap_cons in Hin'. apply elem_of_cons in Hin' as [Heq|Hin']; [|done].
    destruct (submitted_allocated w Hc t Ht) as (l & Hl & Hlt).
    rewrite Heq, Hu in Hl. injection Hl as ?. lia.
  - split; [done|]. intros Hin. apply Hnot.
    assert (completed w ++ pending w ≡ₚ (completed w ++ [u]) ++ pending w')
      as ->; [|done].
    rewrite Hpend. solve_Permutation.
Qed.

Lemma run_dropped (evs : list Event) (t : Task) (w : World) :
  Consistent w ->
  t ∈ submitted w ->
  Handle t ∉ Handle <$> (completed w ++ pending w) ->
  t ∉ completed (run evs w).
Proof.
  revert w. induction evs as [|ev evs IH]; intros w Hc Ht Hnot.
  - simpl. intros Hin. apply Hnot, list_elem_of_fmap. exists t.
    split; [done|]. apply elem_of_app. by left.
  - pose proof (step_effect w ev) as Heff.
    destruct (dropped_stays_dropped t w (step w ev) Hc Heff Ht Hnot).
    apply (IH (step w ev)); [by eapply Effect_consistent | done..].
Qed.

Lemma queued_pending (t : Task) (w : World) : t ∈ queued w -> t ∈ pending w.
Proof.
  unfold queued, pending. destruct (s_Instance w); [|done].
  intros H. apply elem_of_app. by left.
Qed.

(** C8.  [Shutdown] first stores [false] in the running flag (and notifies),
    leaving workers and queues as they are; its joins return only once the
    flag is false and every worker thread has returned; it then releases the
    queues and the instance.  A task still in a queue at that point has not
    been run and is never run afterwards, whatever happens next. *)
Theorem Shutdown_drops_tasks_left_in_queues (evs : list Event) (t : Task) :
  let w := run evs World_initial in
  t ∈ queued w ->
  s_Instance (Shutdown_join w) = None ->
  (forall w0 ts0,
     s_Instance w0 = Some ts0 ->
     Shutdown_signal w0
     = set_instance
         (Some (mkTaskSystem (m_Workers ts0) (m_Queues ts0)
                  (m_QueueMutexes ts0) false (m_ActiveTasks ts0))) w0)
  /\ (exists ts,
        s_Instance w = Some ts
        /\ m_Running ts = false
        /\ Forall (fun wk => pc wk = Exited) (m_Workers ts))
  /\ Shutdown_join w = set_instance None w
  /\ (t ∉ completed w)
  /\ forall evs', t ∉ completed (run evs' (Shutdown_join w)).
Proof.
  intros w Hq Hjoin.
  pose proof (run_consistent evs World_initial Consistent_initial) as Hc.
  fold w in Hc.
  pose proof (queued_pending t w Hq) as Hp.
  assert (Handle t ∉ Handle <$> completed w) as Hnc.
  { pose proof (live_distinct w Hc) as Hnd.
    rewrite fmap_app in Hnd. apply NoDup_app in Hnd as (_ & Hdisj & _).
    intros Hin. apply (Hdisj _ Hin). apply list_elem_of_fmap. by exists t. }
  assert (t ∉ completed w) as Hnc'.
  { intros Hin. apply Hnc, list_elem_of_fmap. by exists t. }
  unfold queued in Hq. unfold Shutdown_join, Shutdown_signal in *.
  destruct (s_Instance w) as [ts|] eqn:Hts; [|by apply elem_of_nil in Hq].
  destruct (negb (m_Running ts) && all_joined ts) eqn:Hcond;
    [|by rewrite Hts in Hjoin].
  apply andb_true_iff in Hcond as [Hrun Hjoined].
  split_and!; [| | done | done |].
  - intros w0 ts0 Hts0. by rewrite Hts0.
  - exists ts. split_and!; [done | by destruct (m_Running ts) |].
    unfold all_joined in Hjoined. rewrite forallb_forall in Hjoined.
    apply Forall_forall. intros wk Hwk%list_elem_of_In.
    specialize (Hjoined wk Hwk). unfold joinable_done in Hjoined.
    by destruct (pc wk).
  - intros evs'. apply run_dropped.
    + eapply Effect_consistent; [exact Hc|].
      pose proof (step_effect w EvShutdownJoin) as Heff.
      cbn [step] in Heff. unfold Shutdown_join in Heff.
      by rewrite Hts, Hrun, Hjoined in Heff.
    + cbn [submitted set_instance]. apply (live_submitted w Hc).
      apply elem_of_app. by right.
    + cbn [completed set_instance]. unfold pending at 1.
      cbn [s_Instance set_instance]. by rewrite app_nil_r.
Qed.

Lemma Shutdown_drops_tasks_left_in_queues_witness :
  let ch := uncontended (fun _ => 0) in
  let evs := [EvInitialize 1 0; EvSchedule (Some (UserFn 7)) Normal 0;
              EvShutdownSignal; EvWorker 0 ch; EvWorker 0 ch] in
  let t := mkTask (Some (UserFn 7)) Normal (mkTaskHandle (Some 0)) in
  let evs' := [EvInitialize 1 0; EvWorker 0 ch; EvWorker 0 ch; EvWorker 0 ch;
               EvWorker 0 ch] in
  t ∈ queued (run evs World_initial)
  /\ s_Instance (Shutdown_join (run evs World_initial)) = None
  /\ t ∉ completed (run evs' (Shutdown_join (run evs World_initial))).
Proof.
  intros ch evs t evs'.
  assert (t ∈ queued (run evs World_initial)) as Hq by (vm_compute; by left).
  assert (s_Instance (Shutdown_join (run evs World_initial)) = None) as Hj
    by reflexivity.
  split; [exact Hq|]. split; [exact Hj|].
  exact (proj2 (proj2 (proj2 (proj2
           (Shutdown_drops_tasks_left_in_queues evs t Hq Hj)))) evs').
Defined.

(** Tasks queued when [Shutdown] clears the running flag can still be run.
    A worker that has passed its test of the flag when it is cleared goes on
    with its iteration: with one worker, the task that is queued at that
    moment is popped, invoked and accounted for before the worker returns
    and the joins complete. *)
Lemma Shutdown_signal_does_not_stop_worker_in_flight :
  let ch := uncontended (fun _ => 0) in
  let t := mkTask (Some (UserFn 7)) Normal (mkTaskHandle (Some 1)) in
  let before :=
    run [EvInitialize 1 0; EvWorker 0 ch; EvWorker 0 ch;
         EvSchedule (Some (UserFn 7)) Normal 0] World_initial in
  let signalled := step before EvShutdownSignal in
  let after :=
    run [EvWorker 0 ch; EvWorker 0 ch; EvWorker 0 ch; EvShutdownJoin]
      signalled in
  queued before = [t]
  /\ (m_Running <$> s_Instance signalled) = Some false
  /\ queued signalled = [t]
  /\ completed after = [t]
  /\ invoked after = [CallUser 7]
  /\ s_Instance after = None.
Proof. vm_compute. by split_and!. Qed.

(** *** The scheduler keeps its queues sorted *)

Lemma queues_in_order_same_queues (w w' : World) (ts ts' : TaskSystem) :
  s_Instance w = Some ts -> s_Instance w' = Some ts' ->
  m_Queues ts' = m_Queues ts ->
  length (heap w) <= length (heap w') ->
  queues_in_order w -> queues_in_order w'.
Proof.
  unfold queues_in_order. intros -> -> -> Hlen [Hs Hh].
  split; [done|]. intros t Ht. specialize (Hh t Ht). lia.
Qed.

Lemma queues_in_order_op (op : QueueOp) (w w' : World) (ts ts' : TaskSystem) :
  s_Instance w = Some ts -> s_Instance w' = Some ts' ->
  m_Queues ts' = apply_op (m_Queues ts) op ->
  length (heap w) <= length (heap w') ->
  (forall t i, op = OpPushTask t i ->
     handle_age t = length (heap w) /\ length (heap w) < length (heap w')) ->
  queues_in_order w -> queues_in_order w'.
Proof.
  unfold queues_in_order. intros -> -> -> Hlen Hpush [Hs Hh]. split.
  - apply apply_op_sorted; [done|].
    intros t i Hop u Hu. destruct (Hpush t i Hop) as [-> _]. by apply Hh.
  - intros t [Ht|[i ->]]%holds_apply_op.
    + specialize (Hh t Ht). lia.
    + destruct (Hpush t i eq_refl) as [-> ?]. done.
Qed.

Lemma step_queues_in_order (w : World) (ev : Event) :
  queues_in_order w -> queues_in_order (step w ev).
Proof.
  intros Hw.
  destruct ev as [numThreads hc | | | function priority draw | slot ch];
    cbn [step].
  - unfold Initialize. destruct (s_Instance w) eqn:Hts; [done|].
    unfold queues_in_order. cbn [s_Instance set_instance].
    destruct (InitializeInternal_workers numThreads hc) as (_ & -> & _).
    split; [apply Forall_replicate; constructor|].
    intros t (i & q & [-> _]%lookup_replicate & Ht). by apply elem_of_nil in Ht.
  - unfold Shutdown_signal. destruct (s_Instance w) as [ts|] eqn:Hts; [|done].
    by eapply (queues_in_order_same_queues w).
  - unfold Shutdown_join. destruct (s_Instance w) as [ts|] eqn:Hts; [|done].
    by destruct (negb (m_Running ts) && all_joined ts).
  - destruct (s_Instance w) as [ts|] eqn:Hts.
    + destruct (Schedule_initialized function priority draw ts w Hts)
        as (ts' & -> & _ & Hq' & _). cbn [snd].
      assert (length (Increment (mkTaskHandle (Some (length (heap w))))
                        (heap w ++ [0%Z])) = S (length (heap w))) as Hlen.
      { unfold Increment. cbn [m_Counter].
        rewrite length_alter, length_app. simpl. lia. }
      eapply (queues_in_order_op (OpPushTask _ _) w); [done | done | exact Hq' | ..];
        cbn [heap]; rewrite ?Hlen; [lia | | done].
      intros t i [= <- _]. split; [done | lia].
    + rewrite (Schedule_uninitialized_eq _ _ _ _ Hts). done.
  - destruct (s_Instance w) as [ts|] eqn:Hts; [|done].
    destruct (m_Workers ts !! slot) as [wk|] eqn:Hwk; [|done].
    unfold worker_step. destruct (pc wk) eqn:Hpc.
    + eapply (queues_in_order_same_queues w); [done | done | done | | done].
      cbn [heap Task_new TaskHandle_new]. rewrite length_app. lia.
    + by eapply (queues_in_order_same_queues w).
    + destruct (TryPopTask (own_lock ch) (threadIndex wk) (m_Queues ts))
        as [[t|] queues] eqn:Hpop.
      * eapply (queues_in_order_op
                  (OpTryPopTask (own_lock ch) (threadIndex wk)) w);
          [done | done | | done | done | done].
        cbn [m_Queues set_worker set_queues apply_op]. by rewrite Hpop.
      * by eapply (queues_in_order_same_queues w).
    + destruct (TryStealTask (steal_draw ch) (steal_lock ch) (m_Queues ts))
        as [[t|] queues] eqn:Hsteal.
      * eapply (queues_in_order_op
                  (OpTryStealTask (steal_draw ch) (steal_lock ch)) w);
          [done | done | | done | done | done].
        cbn [m_Queues set_worker set_queues apply_op]. by rewrite Hsteal.
      * by eapply (queues_in_order_same_queues w).
    + destruct (task wk) as [t|]; [|done].
      eapply (queues_in_order_same_queues w); [done | done | done | | done].
      cbn [heap]. unfold Decrement. destruct (m_Counter (Handle t)); [|done].
      by rewrite length_alter.
    + done.
Qed.

(** In every state the scheduler reaches, each queue is sorted by descending
    priority, ties in submission order. *)
Lemma scheduler_queues_sorted (evs : list Event) (ts : TaskSystem) :
  s_Instance (run evs World_initial) = Some ts ->
  Forall (fun q => queue_sorted handle_age q /\ front_is_first handle_age q)
    (m_Queues ts).
Proof.
  assert (forall w, queues_in_order w -> queues_in_order (run evs w)) as Hrun.
  { induction evs as [|ev evs IH]; intros w Hw; [done|].
    by apply IH, step_queues_in_order. }
  specialize (Hrun World_initial I). unfold queues_in_order in Hrun.
  intros Hts. rewrite Hts in Hrun. destruct Hrun as [Hs _].
  eapply Forall_impl; [exact Hs|].
  intros q Hq. split; [done | by apply queue_sorted_front].
Qed.

(** * Further properties of the scheduler *)

(** ** Initialisation *)

(** X1.  [Initialize(n)] with [0 < n < 2^32] on a program without a
    scheduler creates exactly [n] workers, each at the entry of
    [WorkerThreadFunction] with its own index, and [n] empty queues;
    [GetWorkerCount] returns [n].  While the scheduler exists a further
    [Initialize], whatever its arguments, changes nothing. *)
Theorem Initialize_explicit_then_first_wins (n hardware_concurrency : Z)
    (w : World) :
  (0 < n < UInt32.modulus)%Z ->
  s_Instance w = None ->
  let w' := Initialize n hardware_concurrency w in
  (exists ts,
     s_Instance w' = Some ts
     /\ m_Workers ts = (fun i => mkWorker i AtEntry None) <$> seq 0 (Z.to_nat n)
     /\ m_Queues ts = replicate (Z.to_nat n) []
     /\ m_Running ts = true
     /\ m_ActiveTasks ts = 0%Z)
  /\ GetWorkerCount w' = n
  /\ heap w' = heap w
  /\ forall n' hardware_concurrency',
       Initialize n' hardware_concurrency' w' = w'.
Proof.
  intros Hn Hnone w'.
  assert (resolve_thread_count n hardware_concurrency = n) as Hres.
  { unfold resolve_thread_count. destruct (Z.eqb_spec n 0); lia. }
  destruct (InitializeInternal_workers n hardware_concurrency)
    as (Hw & Hq & _ & Hrun).
  rewrite Hres in Hw, Hq.
  assert (s_Instance w'
          = Some (InitializeInternal n hardware_concurrency TaskSystem_new))
    as Hinst.
  { unfold w', Initialize. by rewrite Hnone. }
  split_and!.
  - eexists. split_and!; [exact Hinst | done..].
  - unfold GetWorkerCount. rewrite Hinst, Hw, length_fmap, length_seq.
    rewrite Z2Nat.id by lia. apply UInt32_wrap_small.
    unfold UInt32.in_range. lia.
  - unfold w', Initialize. by rewrite Hnone.
  - intros n' hc'. unfold Initialize at 1. by rewrite Hinst.
Qed.

Lemma Initialize_explicit_then_first_wins_witness :
  (0 < 4 < UInt32.modulus)%Z
  /\ s_Instance World_initial = None
  /\ GetWorkerCount (Initialize 4 8 World_initial) = 4%Z
  /\ Initialize 0 8 (Initialize 4 8 World_initial) = Initialize 4 8 World_initial.
Proof.
  assert (0 < 4 < UInt32.modulus)%Z as Hn by (unfold UInt32.modulus; lia).
  split; [exact Hn|]. split; [reflexivity|].
  pose proof (Initialize_explicit_then_first_wins 4 8 World_initial Hn eq_refl)
    as (_ & Hcount & _ & Hagain).
  split; [exact Hcount | exact (Hagain 0%Z 8%Z)].
Defined.

(** ** The shape of the scheduler *)

Lemma well_shaped_same_workers (w w' : World) (ts ts' : TaskSystem) :
  s_Instance w = Some ts -> s_Instance w' = Some ts' ->
  m_Workers ts' = m_Workers ts ->
  length (m_Queues ts') = length (m_Queues ts) ->
  m_QueueMutexes ts' = m_QueueMutexes ts ->
  well_shaped w -> well_shaped w'.
Proof. unfold well_shaped. intros -> -> -> -> ->. done. Qed.

Lemma well_shaped_set_worker (w w' : World) (ts ts' : TaskSystem)
    (slot : nat) (wk wk' : Worker) :
  s_Instance w = Some ts -> s_Instance w' = Some ts' ->
  m_Workers ts !! slot = Some wk ->
  m_Workers ts' = <[slot := wk']> (m_Workers ts) ->
  length (m_Queues ts') = length (m_Queues ts) ->
  m_QueueMutexes ts' = m_QueueMutexes ts ->
  threadIndex wk' = threadIndex wk ->
  (pc wk' = AtEntry \/ is_Some (task wk')) ->
  well_shaped w -> well_shaped w'.
Proof.
  unfold well_shaped. intros -> -> Hwk -> -> -> Hidx Htask (H1 & H2 & H3 & H4).
  rewrite length_insert. split_and!; [done..|].
  intros i wk0 [(<- & <- & _)|[Hne Hi]]%list_lookup_insert_Some.
  - split; [|done]. rewrite Hidx. by apply H4.
  - by apply H4.
Qed.

Lemma step_well_shaped (w : World) (ev : Event) :
  well_shaped w -> well_shaped (step w ev).
Proof.
  intros Hw.
  destruct ev as [numThreads hc | | | function priority draw | slot ch];
    cbn [step].
  - unfold Initialize. destruct (s_Instance w) eqn:Hts; [done|].
    unfold well_shaped. cbn [s_Instance set_instance].
    destruct (InitializeInternal_workers numThreads hc) as (-> & -> & -> & _).
    rewrite length_fmap, length_seq, length_replicate.
    assert (1 <= Z.to_nat (resolve_thread_count numThreads hc)).
    { unfold resolve_thread_count. lia. }
    split_and!; [done..|].
    intros i wk Hi. rewrite list_lookup_fmap in Hi.
    destruct (seq _ _ !! i) as [j|] eqn:Hj; [|done].
    apply lookup_seq in Hj as [-> _]. injection Hi as <-. split; [done | by left].
  - unfold Shutdown_signal. destruct (s_Instance w) as [ts|] eqn:Hts; [|done].
    by eapply (well_shaped_same_workers w).
  - unfold Shutdown_join. destruct (s_Instance w) as [ts|] eqn:Hts; [|done].
    by destruct (negb (m_Running ts) && all_joined ts).
  - unfold Schedule. destruct (s_Instance w) as [ts|] eqn:Hts; [|done].
    eapply (well_shaped_same_workers w); [done | done | done | | done | done].
    cbn [m_Queues]. unfold PushTask. by rewrite length_alter.
  - destruct (s_Instance w) as [ts|] eqn:Hts; [|done].
    destruct (m_Workers ts !! slot) as [wk|] eqn:Hwk; [|done].
    assert (pc wk = AtEntry \/ is_Some (task wk)) as Htask.
    { unfold well_shaped in Hw. rewrite Hts in Hw.
      destruct Hw as (_ & _ & _ & H4). by apply (H4 slot). }
    unfold worker_step. destruct (pc wk) eqn:Hpc.
    + eapply (well_shaped_set_worker w); [done | done | exact Hwk | done..| | done].
      right. by eexists.
    + eapply (well_shaped_set_worker w); [done | done | exact Hwk | done..| | done].
      right. by destruct Htask.
    + destruct (TryPopTask_cases (own_lock ch) (threadIndex wk) (m_Queues ts))
        as [-> | (front & rest & _ & Hq & ->)].
      * eapply (well_shaped_set_worker w);
          [done | done | exact Hwk | done..| | done].
        right. by destruct Htask.
      * eapply (well_shaped_set_worker w);
          [done | done | exact Hwk | done | | done | done | | done].
        -- cbn [m_Queues set_worker set_queues]. by rewrite length_insert.
        -- right. by eexists.
    + destruct (TryStealTask_cases (steal_draw ch) (steal_lock ch) (m_Queues ts))
        as [[-> _] | (k & q & back & _ & _ & _ & Hq & ->)].
      * eapply (well_shaped_set_worker w);
          [done | done | exact Hwk | done..| | done].
        right. by destruct Htask.
      * eapply (well_shaped_set_worker w);
          [done | done | exact Hwk | done | | done | done | | done].
        -- cbn [m_Queues set_worker set_queues]. by rewrite length_insert.
        -- right. by eexists.
    + destruct (task wk) as [t|]; [|done].
      eapply (well_shaped_set_worker w);
        [done | done | exact Hwk | done..| | done].
      right. by eexists.
    + done.
Qed.

Lemma run_well_shaped (evs : list Event) (w : World) :
  well_shaped w -> well_shaped (run evs w).
Proof.
  revert w. induction evs as [|ev evs IH]; intros w Hw; [done|].
  by apply IH, step_well_shaped.
Qed.

(** X2.  Whatever has happened, while the scheduler exists it has at least
    one worker and exactly one queue and one mutex per worker, and the
    worker in slot [i] serves queue [i]: the queue index a submission draws
    and the index each worker passes to [TryPopTask] lie within the vector
    of queues. *)
Theorem scheduler_indices_in_range (evs : list Event) (ts : TaskSystem) :
  s_Instance (run evs World_initial) = Some ts ->
  1 <= length (m_Workers ts)
  /\ length (m_Queues ts) = length (m_Workers ts)
  /\ length (m_QueueMutexes ts) = length (m_Workers ts)
  /\ (forall draw, draw mod length (m_Queues ts) < length (m_Queues ts))
  /\ forall i wk, m_Workers ts !! i = Some wk ->
       threadIndex wk = i /\ threadIndex wk < length (m_Queues ts).
Proof.
  intros Hts.
  pose proof (run_well_shaped evs World_initial I) as Hw.
  unfold well_shaped in Hw. rewrite Hts in Hw.
  destruct Hw as (H1 & H2 & H3 & H4).
  split_and!; [done..| |].
  - intros draw. apply Nat.mod_upper_bound. lia.
  - intros i wk Hi. destruct (H4 i wk Hi) as [-> _].
    split; [done|]. rewrite H2. by eapply lookup_lt_Some.
Qed.

Lemma scheduler_indices_in_range_witness :
  let evs := [EvInitialize 3 0; EvSchedule (Some (UserFn 1)) High 7;
              EvWorker 1 (uncontended (fun k => k))] in
  exists ts,
    s_Instance (run evs World_initial) = Some ts
    /\ length (m_Queues ts) = length (m_Workers ts).
Proof.
  intros evs. eexists. split; [reflexivity|].
  exact (proj1 (proj2 (scheduler_indices_in_range evs _ eq_refl))).
Defined.

(** ** Tasks in flight *)

Lemma worker_step_flow (ch : Chance) (slot : nat) (wk : Worker)
    (ts : TaskSystem) (w : World) :
  s_Instance w = Some ts ->
  m_Workers ts !! slot = Some wk ->
  Flow (EvWorker slot ch) w (worker_step ch slot wk ts w).
Proof.
  intros Hts Hwk.
  destruct (running_insert_perm _ _ _ Hwk) as (others & Hold & Hnew).
  assert (pending w = concat (m_Queues ts) ++ (m_Workers ts ≫= held)) as Hpend.
  { unfold pending. by rewrite Hts. }
  assert (active_tasks w = m_ActiveTasks ts) as Hact.
  { unfold active_tasks. by rewrite Hts. }
  unfold worker_step.
  destruct (pc wk) eqn:Hpc.
  - apply flow_quiet; [| done | done | by rewrite Hact].
    rewrite Hpend. reduce_pending. rewrite Hnew, Hold.
    unfold held. cbn [pc]. by rewrite Hpc.
  - apply flow_quiet; [| done | done | by rewrite Hact].
    rewrite Hpend. reduce_pending. rewrite Hnew, Hold.
    unfold held. cbn [pc]. rewrite Hpc. by destruct (m_Running ts).
  - destruct (TryPopTask_cases (own_lock ch) (threadIndex wk) (m_Queues ts))
      as [-> | (front & rest & _ & Hq & ->)].
    + apply flow_quiet; [| done | done | by rewrite Hact].
      rewrite Hpend. reduce_pending. rewrite Hnew, Hold.
      unfold held. cbn [pc]. by rewrite Hpc.
    + destruct (concat_insert_perm _ _ _ Hq) as (rest_q & Hqold & Hqnew).
      apply flow_quiet; [| done | done | by rewrite Hact].
      rewrite Hpend. reduce_pending. rewrite Hnew, Hold, Hqnew, Hqold.
      unfold held. cbn [pc task option_list]. rewrite Hpc.
      solve_Permutation.
  - destruct (TryStealTask_cases (steal_draw ch) (steal_lock ch) (m_Queues ts))
      as [[-> _] | (k & q & back & _ & _ & _ & Hq & ->)].
    + apply flow_quiet; [| done | done | by rewrite Hact].
      rewrite Hpend. reduce_pending. rewrite Hnew, Hold.
      unfold held. cbn [pc]. by rewrite Hpc.
    + destruct (concat_insert_perm _ _ _ Hq) as (rest_q & Hqold & Hqnew).
      apply flow_quiet; [| done | done | by rewrite Hact].
      rewrite Hpend. reduce_pending. rewrite Hnew, Hold, Hqnew, Hqold.
      unfold held. cbn [pc task option_list]. rewrite Hpc.
      solve_Permutation.
  - destruct (task wk) as [t|] eqn:Htask.
    + apply (flow_complete _ _ _ t); [| done | done | by rewrite Hact].
      rewrite Hpend. reduce_pending. rewrite Hnew, Hold.
      unfold held. cbn [pc task]. rewrite Hpc, Htask. cbn [option_list].
      solve_Permutation.
    + by apply flow_quiet.
  - by apply flow_quiet.
Qed.

Lemma step_flow (w : World) (ev : Event) :
  well_shaped w -> Flow ev w (step w ev).
Proof.
  intros Hshape.
  destruct ev as [numThreads hc | | | function priority draw | slot ch];
    cbn [step].
  - unfold Initialize. destruct (s_Instance w) eqn:Hts; [by apply flow_quiet|].
    apply flow_quiet; [| done | done |].
    + unfold pending. cbn [s_Instance set_instance].
      by rewrite Hts, pending_initialized.
    + unfold active_tasks. cbn [s_Instance set_instance]. by rewrite Hts.
  - unfold Shutdown_signal. destruct (s_Instance w) as [ts|] eqn:Hts;
      [|by apply flow_quiet].
    apply flow_quiet; [| done | done |].
    + unfold pending. by rewrite Hts.
    + unfold active_tasks. by rewrite Hts.
  - unfold Shutdown_join. destruct (s_Instance w) as [ts|] eqn:Hts;
      [|by apply flow_quiet].
    destruct (negb (m_Running ts) && all_joined ts);
      [by apply flow_drop | by apply flow_quiet].
  - destruct (s_Instance w) as [ts|] eqn:Hts.
    + unfold Schedule. rewrite Hts. unfold ScheduleInternal.
      cbn [Task_new TaskHandle_new snd Handle].
      apply (flow_submit _ _ _
               (mkTask function priority
                  (mkTaskHandle (Some (length (heap w)))))); [| done | done |].
      * unfold pending. rewrite Hts. cbn [s_Instance]. unfold running.
        cbn [m_Workers m_Queues]. rewrite PushTask_cases.
        unfold well_shaped in Hshape. rewrite Hts in Hshape.
        destruct Hshape as (H1 & H2 & _).
        destruct (lookup_lt_is_Some_2 (m_Queues ts)
                    (draw mod length (m_Queues ts))) as [q Hq].
        { apply Nat.mod_upper_bound. lia. }
        rewrite Hq.
        destruct (concat_insert_perm _ _ _ Hq) as (others & Hold & Hnew).
        rewrite Hnew, Hold, insert_by_priority_perm. solve_Permutation.
      * unfold active_tasks. by rewrite Hts.
    + rewrite (Schedule_uninitialized_eq _ _ _ _ Hts). cbn [snd].
      apply flow_quiet; [| done | done |].
      * unfold pending. by rewrite Hts.
      * unfold active_tasks. by rewrite Hts.
  - destruct (s_Instance w) as [ts|] eqn:Hts; [|by apply flow_quiet].
    destruct (m_Workers ts !! slot) as [wk|] eqn:Hwk; [|by apply flow_quiet].
    by apply worker_step_flow.
Qed.

Lemma run_cons (ev : Event) (evs : list Event) (w : World) :
  run (ev :: evs) w = run evs (step w ev).
Proof. done. Qed.

Lemma active_tasks_counts_pending (evs : list Event) :
  forall w,
    well_shaped w ->
    active_tasks w = UInt32.wrap (Z.of_nat (length (pending w))) ->
    active_tasks (run evs w)
    = UInt32.wrap (Z.of_nat (length (pending (run evs w)))).
Proof.
  induction evs as [|ev evs IH]; intros w Hshape Hact; [done|].
  rewrite run_cons. apply IH; [by apply step_well_shaped|].
  destruct (step_flow w ev Hshape)
    as [Hp _ _ Ha | t Hp _ _ Ha | t Hp _ _ Ha | _ Hnone _ _].
  - by rewrite Ha, Hp.
  - rewrite Ha, Hp, Hact. cbn [length]. unfold UInt32.add, UInt32.wrap.
    rewrite Zplus_mod_idemp_l. f_equal. lia.
  - rewrite Ha, Hact, Hp. cbn [length]. unfold UInt32.sub, UInt32.wrap.
    rewrite Zminus_mod_idemp_l. f_equal. lia.
  - unfold active_tasks, pending. by rewrite Hnone.
Qed.

Lemma WaitForAll_guard_pending (evs : list Event) :
  let w := run evs World_initial in
  (Z.of_nat (length (pending w)) < UInt32.modulus)%Z ->
  (WaitForAll_guard w = false <-> pending w = []).
Proof.
  intros w Hlt.
  assert (WaitForAll_guard w = (0 <? active_tasks w)%Z) as ->.
  { unfold WaitForAll_guard, active_tasks. by destruct (s_Instance w). }
  unfold w. rewrite active_tasks_counts_pending by done. fold w.
  rewrite UInt32_wrap_small by (unfold UInt32.in_range; lia).
  rewrite Z.ltb_ge. destruct (pending w); simpl; split; (done || lia).
Qed.

(** X3.  The global counter [m_ActiveTasks] always equals, modulo [2^32],
    the number of tasks that are queued or held by a worker about to run
    them.  So, with fewer than [2^32] such tasks, the polling loop of
    [WaitForAll] exits exactly when no task is queued or about to run. *)
Theorem WaitForAll_waits_for_pending_tasks (evs : list Event) :
  let w := run evs World_initial in
  active_tasks w = UInt32.wrap (Z.of_nat (length (pending w)))
  /\ ((Z.of_nat (length (pending w)) < UInt32.modulus)%Z ->
      (WaitForAll_guard w = false <-> pending w = [])).
Proof.
  intros w. split.
  - by apply active_tasks_counts_pending.
  - apply WaitForAll_guard_pending.
Qed.

(** ** Nothing is lost before a shutdown *)

Lemma run_conserves (evs : list Event) :
  forall w,
    well_shaped w ->
    no_join evs ->
    submitted w ≡ₚ completed w ++ pending w ->
    submitted (run evs w) ≡ₚ completed (run evs w) ++ pending (run evs w).
Proof.
  induction evs as [|ev evs IH]; intros w Hshape Hnj Hcons; [done|].
  apply Forall_cons in Hnj as [Hev Hnj].
  rewrite run_cons. apply IH; [by apply step_well_shaped | done |].
  destruct (step_flow w ev Hshape)
    as [Hp Hs Hc _ | t Hp Hs Hc _ | t Hp Hs Hc _ | -> _ _ _]; [| | | done].
  - by rewrite Hs, Hc, Hp.
  - rewrite Hs, Hc, Hp, Hcons. solve_Permutation.
  - rewrite Hs, Hc, Hcons, Hp. solve_Permutation.
Qed.

(** X4.  As long as no [Shutdown] has completed, every task ever submitted
    is either completed or still pending (queued or about to run): none is
    lost.  So when the loop of [WaitForAll] exits, with fewer than [2^32]
    tasks pending, every submitted task has been run and [IsComplete] holds
    of every handle [Schedule] gave out for it. *)
Theorem WaitForAll_exit_means_all_complete (evs : list Event) :
  no_join evs ->
  let w := run evs World_initial in
  submitted w ≡ₚ completed w ++ pending w
  /\ (WaitForAll_guard w = false ->
      (Z.of_nat (length (pending w)) < UInt32.modulus)%Z ->
      forall t, t ∈ submitted w ->
        t ∈ completed w /\ IsComplete (Handle t) (heap w) = true).
Proof.
  intros Hnj w.
  assert (submitted w ≡ₚ completed w ++ pending w) as Hcons.
  { by apply run_conserves. }
  split; [done|]. intros Hguard Hlt t Ht.
  apply (WaitForAll_guard_pending evs Hlt) in Hguard. fold w in Hguard.
  rewrite Hguard, app_nil_r in Hcons.
  assert (forall u, u ∈ submitted w -> u ∈ completed w) as Hall.
  { intros u Hu. by rewrite <- Hcons. }
  split; [by apply Hall|].
  pose proof (run_consistent evs World_initial Consistent_initial) as Hc.
  fold w in Hc.
  destruct (submitted_allocated w Hc t Ht) as (l & Hl & _).
  unfold IsComplete. rewrite Hl. cbn [m_Counter].
  destruct (counters_match w Hc l) as [[_ (u & Hu & _ & Hnc)] | [-> _]];
    [|done].
  exfalso. by apply Hnc, Hall.
Qed.

Lemma WaitForAll_exit_means_all_complete_witness :
  let ch := uncontended (fun k => k) in
  let evs := [EvInitialize 1 0; EvSchedule (Some (UserFn 5)) Normal 2;
              EvWorker 0 ch; EvWorker 0 ch; EvWorker 0 ch; EvWorker 0 ch] in
  no_join evs
  /\ submitted (run evs World_initial)
     ≡ₚ completed (run evs World_initial) ++ pending (run evs World_initial).
Proof.
  intros ch evs.
  assert (no_join evs) as Hnj by (repeat constructor).
  split; [exact Hnj|].
  exact (proj1 (WaitForAll_exit_means_all_complete evs Hnj)).
Defined.

(** ** Tasks and their handles *)

(** X5.  No task is run twice and only submitted tasks are run: in every
    state the scheduler reaches, the tasks the workers have run are pairwise
    distinct, each was submitted by [ScheduleInternal], and the calls made so
    far are exactly the calls of these tasks' callables, in the order the
    tasks were run. *)
Theorem tasks_run_at_most_once (evs : list Event) :
  let w := run evs World_initial in
  NoDup (completed w)
  /\ NoDup (Handle <$> completed w)
  /\ (forall t, t ∈ completed w -> t ∈ submitted w)
  /\ (forall t, t ∈ completed w -> t ∉ pending w)
  /\ invoked w = completed w ≫= task_calls.
Proof.
  intros w.
  pose proof (run_consistent evs World_initial Consistent_initial) as Hc.
  fold w in Hc.
  pose proof (live_distinct w Hc) as Hnd.
  rewrite fmap_app in Hnd. apply NoDup_app in Hnd as (Hndc & Hdisj & _).
  split_and!.
  - by apply (NoDup_fmap_1 Handle).
  - done.
  - intros t Ht. apply (live_submitted w Hc), elem_of_app. by left.
  - intros t Ht Hp. apply (Hdisj (Handle t)); apply list_elem_of_fmap; by exists t.
  - apply (invoked_by_completed w Hc).
Qed.

(** X6.  For a task that was submitted, [IsComplete] on its handle is true
    exactly when a worker has run the task, and the loop of [Wait] is then
    left at its first poll; until then the counter is 1 and [Wait] keeps
    polling. *)
Theorem handle_reports_its_task (evs : list Event) (t : Task) :
  let w := run evs World_initial in
  t ∈ submitted w ->
  (IsComplete (Handle t) (heap w) = true <-> t ∈ completed w)
  /\ (Wait_guard (Handle t) (heap w) = false <-> t ∈ completed w)
  /\ (t ∈ completed w -> forall later, Wait (Handle t) (heap w :: later) = Some 0)
  /\ (t ∉ completed w ->
      exists l, m_Counter (Handle t) = Some l /\ counter_load (heap w) l = 1%Z).
Proof.
  intros w Ht.
  pose proof (run_consistent evs World_initial Consistent_initial) as Hc.
  fold w in Hc.
  destruct (submitted_allocated w Hc t Ht) as (l & Hl & _).
  assert (t ∈ completed w /\ counter_load (heap w) l = 0%Z
          \/ (t ∉ completed w) /\ counter_load (heap w) l = 1%Z) as Hcases.
  { destruct (counters_match w Hc l) as [[Hone (u & Hu & Hh & Hnc)] | [Hz Hall]].
    - right. split; [|done].
      assert (t = u) as ->; [|done].
      apply (NoDup_fmap_elem_inj Handle (submitted w));
        [apply (submitted_distinct w Hc) | done | done | congruence].
    - left. split; [by apply Hall | done]. }
  unfold IsComplete, Wait. unfold Wait_guard. rewrite Hl. cbn [m_Counter].
  destruct Hcases as [[Hin Hload] | [Hnin Hload]]; rewrite Hload.
  - split_and!; [done | done | done |]. intros Hn. by destruct Hn.
  - split_and!; [done | done | done |]. intros _. by exists l.
Qed.

Lemma handle_reports_its_task_witness :
  let ch := uncontended (fun k => k) in
  let evs := [EvInitialize 1 0; EvSchedule (Some (UserFn 5)) Normal 2;
              EvWorker 0 ch; EvWorker 0 ch; EvWorker 0 ch; EvWorker 0 ch] in
  let t := mkTask (Some (UserFn 5)) Normal (mkTaskHandle (Some 0)) in
  t ∈ submitted (run evs World_initial)
  /\ (IsComplete (Handle t) (heap (run evs World_initial)) = true
      <-> t ∈ completed (run evs World_initial)).
Proof.
  intros ch evs t.
  assert (t ∈ submitted (run evs World_initial)) as Ht by (vm_compute; by left).
  split; [exact Ht|].
  exact (proj1 (handle_reports_its_task evs t Ht)).
Defined.

(** X7.  [Wait] never returns on the handle of a task that [Shutdown]
    dropped: for a task still queued when the joins return, the counter
    stays at 1 in every later state, so the guard of the polling loop stays
    true and [IsComplete] stays false, whatever happens next. *)
Theorem Wait_on_dropped_task_spins (evs : list Event) (t : Task) :
  let w := run evs World_initial in
  t ∈ queued w ->
  s_Instance (Shutdown_join w) = None ->
  forall evs',
    let w' := run evs' (Shutdown_join w) in
    Wait_guard (Handle t) (heap w') = true
    /\ IsComplete (Handle t) (heap w') = false
    /\ Wait (Handle t) [heap w'] = None.
Proof.
  intros w Hq Hjoin evs' w'.
  pose proof (run_consistent evs World_initial Consistent_initial) as Hc.
  fold w in Hc.
  pose proof (queued_pending t w Hq) as Hp.
  assert (Effect w (Shutdown_join w)) as Heff by apply (step_effect w EvShutdownJoin).
  pose proof (Effect_consistent _ _ Hc Heff) as Hc2.
  assert (t ∈ submitted (Shutdown_join w)
          /\ Handle t ∉ Handle <$> (completed (Shutdown_join w)
                                     ++ pending (Shutdown_join w))) as [Hs Hn].
  { assert (submitted (Shutdown_join w) = submitted w
            /\ completed (Shutdown_join w) = completed w) as [-> ->].
    { unfold Shutdown_join. destruct (s_Instance w); [|done].
      by destruct (negb _ && _). }
    split; [apply (live_submitted w Hc), elem_of_app; by right|].
    unfold pending at 1. rewrite Hjoin, app_nil_r.
    pose proof (live_distinct w Hc) as Hnd.
    rewrite fmap_app in Hnd. apply NoDup_app in Hnd as (_ & Hdisj & _).
    intros Hin. apply (Hdisj _ Hin). apply list_elem_of_fmap. by exists t. }
  assert (t ∈ submitted w' /\ (t ∉ completed w')) as [Hs' Hn'].
  { unfold w'. clear w'. revert Hc2 Hs Hn.
    generalize (Shutdown_join w). clear.
    induction evs' as [|ev evs' IH]; intros w0 Hc Hs Hn.
    - split; [done|]. intros Hin. apply Hn, list_elem_of_fmap. exists t.
      split; [done|]. apply elem_of_app. by left.
    - pose proof (step_effect w0 ev) as Heff.
      destruct (dropped_stays_dropped t w0 (step w0 ev) Hc Heff Hs Hn).
      apply (IH (step w0 ev)); [by eapply Effect_consistent | done..]. }
  pose proof (run_consistent evs' _ Hc2) as Hc'. fold w' in Hc'.
  destruct (submitted_allocated w' Hc' t Hs') as (l & Hl & _).
  assert (counter_load (heap w') l = 1%Z) as Hload.
  { destruct (counters_match w' Hc' l) as [[? _] | [_ Hall]]; [done|].
    exfalso. by apply Hn', Hall. }
  unfold Wait, IsComplete, Wait_guard. rewrite Hl. cbn [m_Counter].
  by rewrite Hload.
Qed.

Lemma Wait_on_dropped_task_spins_witness :
  let ch := uncontended (fun _ => 0) in
  let evs := [EvInitialize 1 0; EvSchedule (Some (UserFn 7)) Normal 0;
              EvShutdownSignal; EvWorker 0 ch; EvWorker 0 ch] in
  let t := mkTask (Some (UserFn 7)) Normal (mkTaskHandle (Some 0)) in
  let evs' := [EvInitialize 2 0; EvSchedule None Low 1] in
  t ∈ queued (run evs World_initial)
  /\ s_Instance (Shutdown_join (run evs World_initial)) = None
  /\ Wait_guard (Handle t)
       (heap (run evs' (Shutdown_join (run evs World_initial)))) = true.
Proof.
  intros ch evs t evs'.
  assert (t ∈ queued (run evs World_initial)) as Hq by (vm_compute; by left).
  assert (s_Instance (Shutdown_join (run evs World_initial)) = None) as Hj
    by reflexivity.
  split; [exact Hq|]. split; [exact Hj|].
  exact (proj1 (Wait_on_dropped_task_spins evs t Hq Hj evs')).
Defined.

(** X8.  [Schedule] returns a handle on a counter of its own, allocated by
    this call: no task submitted before has it, every counter that existed
    keeps its value, and nothing is invoked by the call.  With a scheduler
    the new counter holds 1 and the task is recorded as submitted with the
    callable and priority given; without one it holds 0. *)
Theorem Schedule_returns_fresh_handle (evs : list Event)
    (function : option TaskFunction) (priority : TaskPriority) (draw : nat) :
  let w := run evs World_initial in
  let h := fst (Schedule function priority draw w) in
  let w' := snd (Schedule function priority draw w) in
  m_Counter h = Some (length (heap w))
  /\ length (heap w') = S (length (heap w))
  /\ (forall t, t ∈ submitted w -> Handle t <> h)
  /\ (forall l, l < length (heap w) ->
        counter_load (heap w') l = counter_load (heap w) l)
  /\ invoked w' = invoked w
  /\ completed w' = completed w
  /\ match s_Instance w with
     | Some _ =>
         counter_load (heap w') (length (heap w)) = 1%Z
         /\ submitted w' = submitted w ++ [mkTask function priority h]
     | None =>
         counter_load (heap w') (length (heap w)) = 0%Z
         /\ submitted w' = submitted w
     end.
Proof.
  intros w h w'.
  pose proof (run_consistent evs World_initial Consistent_initial) as Hc.
  fold w in Hc.
  assert (h = mkTaskHandle (Some (length (heap w)))) as Hh.
  { unfold h, Schedule, ScheduleInternal. by destruct (s_Instance w). }
  assert (forall t, t ∈ submitted w -> Handle t <> h) as Hfresh.
  { intros t Ht Heq. destruct (submitted_allocated w Hc t Ht) as (l & Hl & Hlt).
    rewrite Heq, Hh in Hl. injection Hl as ?. lia. }
  rewrite Hh. unfold w', Schedule.
  destruct (s_Instance w) as [ts|] eqn:Hts.
  - unfold ScheduleInternal. cbn [Task_new TaskHandle_new snd heap invoked
      completed submitted Handle]. unfold Increment. cbn [m_Counter].
    rewrite length_alter, length_app. cbn [length].
    split_and!; [done | lia | by rewrite <- Hh | | done | done | | done].
    + intros l Hl. rewrite counter_load_alter_ne by lia.
      apply counter_load_alloc.
    + rewrite counter_load_alter_eq by (rewrite length_app; simpl; lia).
      by rewrite counter_load_new.
  - cbn [TaskHandle_new snd heap invoked completed submitted].
    rewrite length_app. cbn [length].
    split_and!; [done | lia | by rewrite <- Hh | | done | done | | done].
    + intros l Hl. apply counter_load_alloc.
    + apply counter_load_new.
Qed.

(** ** Shutdown completes *)

Lemma steps_to_exit_bound (p : WorkerPc) : steps_to_exit p <= 4.
Proof. destruct p; simpl; lia. Qed.

(** Once the running flag is false, a transition of a worker brings it
    closer to its return, and nothing else moves it away. *)
Lemma step_towards_exit (w : World) (ts : TaskSystem) (ev : Event) :
  s_Instance w = Some ts -> m_Running ts = false -> well_shaped w ->
  ev <> EvShutdownJoin ->
  exists ts',
    s_Instance (step w ev) = Some ts'
    /\ m_Running ts' = false
    /\ length (m_Workers ts') = length (m_Workers ts)
    /\ forall i wk', m_Workers ts' !! i = Some wk' ->
         exists wk,
           m_Workers ts !! i = Some wk
           /\ steps_to_exit (pc wk')
              <= steps_to_exit (pc wk) - worker_steps i [ev].
Proof.
  intros Hts Hrun Hshape Hev.
  assert (forall ts',
            m_Running ts' = false -> m_Workers ts' = m_Workers ts ->
            forall slot,
            m_Running ts' = false
            /\ length (m_Workers ts') = length (m_Workers ts)
            /\ forall i wk', m_Workers ts' !! i = Some wk' ->
                 exists wk,
                   m_Workers ts !! i = Some wk
                   /\ steps_to_exit (pc wk')
                      <= steps_to_exit (pc wk)
                         - (if decide (i = slot) then 0 else 0)) as Hsame.
  { intros ts' Hr Hw slot. rewrite Hw. split_and!; [done..|].
    intros i wk' Hi. exists wk'. split; [done|]. case_decide; lia. }
  destruct ev as [numThreads hc | | | function priority draw | slot ch];
    cbn [step worker_steps]; [| | done | |].
  - unfold Initialize. rewrite Hts. exists ts.
    destruct (Hsame ts Hrun eq_refl 0) as (? & ? & Hall).
    split_and!; [done..|]. intros i wk' Hi.
    destruct (Hall i wk' Hi) as (wk & ? & ?). exists wk. split; [done|].
    case_decide; lia.
  - unfold Shutdown_signal. rewrite Hts. eexists. split; [reflexivity|].
    destruct (Hsame (ShutdownInternal_signal ts) eq_refl eq_refl 0)
      as (? & ? & Hall).
    split_and!; [done..|]. intros i wk' Hi.
    destruct (Hall i wk' Hi) as (wk & ? & ?). exists wk. split; [done|].
    case_decide; lia.
  - destruct (Schedule_initialized function priority draw ts w Hts)
      as (ts' & -> & Hw' & _ & Hr'). cbn [snd s_Instance].
    exists ts'. split; [done|].
    destruct (Hsame ts' ltac:(congruence) Hw' 0) as (? & ? & Hall).
    split_and!; [done..|]. intros i wk' Hi.
    destruct (Hall i wk' Hi) as (wk & ? & ?). exists wk. split; [done|].
    case_decide; lia.
  - rewrite Hts.
    destruct (m_Workers ts !! slot) as [wk|] eqn:Hwk.
    2:{ exists ts. split; [done|]. split_and!; [done..|].
        intros i wk' Hi. exists wk'. split; [done|].
        case_decide; [congruence | lia]. }
    assert (pc wk = AtExecute -> is_Some (task wk)) as Htask.
    { unfold well_shaped in Hshape. rewrite Hts in Hshape.
      destruct Hshape as (_ & _ & _ & H4).
      destruct (H4 slot wk Hwk) as [_ [Hp|?]]; [congruence | done]. }
    assert (forall ts1 wk1,
              m_Running ts1 = false ->
              m_Workers ts1 = <[slot := wk1]> (m_Workers ts) ->
              steps_to_exit (pc wk1) <= steps_to_exit (pc wk) - 1 ->
              m_Running ts1 = false
              /\ length (m_Workers ts1) = length (m_Workers ts)
              /\ forall i wk', m_Workers ts1 !! i = Some wk' ->
                   exists wk0,
                     m_Workers ts !! i = Some wk0
                     /\ steps_to_exit (pc wk')
                        <= steps_to_exit (pc wk0)
                           - ((if decide (i = slot) then 1 else 0) + 0))
      as Hmove.
    { intros ts1 wk1 Hr Hw Hle. rewrite Hw, length_insert.
      split_and!; [done..|].
      intros i wk' [(<- & <- & _)|[Hne Hi]]%list_lookup_insert_Some.
      - exists wk. split; [done|]. rewrite decide_True by done. lia.
      - exists wk'. split; [done|]. rewrite decide_False by done. lia. }
    unfold worker_step. destruct (pc wk) eqn:Hpc.
    + eexists. split; [reflexivity|].
      eapply Hmove; [exact Hrun | reflexivity | simpl; lia].
    + eexists. split; [reflexivity|]. rewrite Hrun.
      eapply Hmove; [exact Hrun | reflexivity | simpl; lia].
    + destruct (TryPopTask (own_lock ch) (threadIndex wk) (m_Queues ts))
        as [[t|] queues]; (eexists; split; [reflexivity|]).
      * eapply Hmove; [exact Hrun | reflexivity | simpl; lia].
      * eapply Hmove; [exact Hrun | reflexivity | simpl; lia].
    + destruct (TryStealTask (steal_draw ch) (steal_lock ch) (m_Queues ts))
        as [[t|] queues]; (eexists; split; [reflexivity|]).
      * eapply Hmove; [exact Hrun | reflexivity | simpl; lia].
      * eapply Hmove; [exact Hrun | reflexivity | simpl; lia].
    + destruct (Htask eq_refl) as [t ->].
      eexists. split; [reflexivity|].
      eapply Hmove; [exact Hrun | reflexivity | simpl; lia].
    + exists ts. split; [done|]. split_and!; [done..|].
      intros i wk' Hi. exists wk'. split; [done|].
      case_decide; subst; [|lia].
      assert (wk' = wk) as -> by congruence. rewrite Hpc. simpl. lia.
Qed.

Lemma worker_steps_cons (i : nat) (ev : Event) (evs : list Event) :
  worker_steps i (ev :: evs) = worker_steps i [ev] + worker_steps i evs.
Proof. destruct ev; simpl; lia. Qed.

Lemma run_towards_exit (evs : list Event) :
  forall (w : World) (ts : TaskSystem),
    s_Instance w = Some ts -> m_Running ts = false -> well_shaped w ->
    no_join evs ->
    exists ts',
      s_Instance (run evs w) = Some ts'
      /\ m_Running ts' = false
      /\ length (m_Workers ts') = length (m_Workers ts)
      /\ forall i wk', m_Workers ts' !! i = Some wk' ->
           exists wk,
             m_Workers ts !! i = Some wk
             /\ steps_to_exit (pc wk')
                <= steps_to_exit (pc wk) - worker_steps i evs.
Proof.
  induction evs as [|ev evs IH]; intros w ts Hts Hrun Hshape Hnj.
  - exists ts. split_and!; [done..|]. intros i wk' Hi. exists wk'.
    split; [done | simpl; lia].
  - apply Forall_cons in Hnj as [Hev Hnj].
    destruct (step_towards_exit w ts ev Hts Hrun Hshape)
      as (ts1 & Hts1 & Hrun1 & Hlen1 & Hall1); [by intros ->|].
    destruct (IH (step w ev) ts1 Hts1 Hrun1 (step_well_shaped w ev Hshape) Hnj)
      as (ts' & Hts' & Hrun' & Hlen' & Hall').
    exists ts'. rewrite run_cons. split_and!; [done | done | congruence |].
    intros i wk' Hi. destruct (Hall' i wk' Hi) as (wk1 & Hi1 & Hle1).
    destruct (Hall1 i wk1 Hi1) as (wk & Hiw & Hle).
    exists wk. split; [done|]. rewrite worker_steps_cons. lia.
Qed.

(** X9.  [Shutdown] completes.  Once the running flag is false a worker
    returns after at most four more of its transitions (it finishes at most
    the iteration it is in), whatever else happens meanwhile (submissions,
    other workers, calls of [Initialize]); when every worker has made them,
    all have returned, the joins return and the scheduler is released. *)
Theorem Shutdown_completes (evs0 evs : list Event) (ts : TaskSystem) :
  let w := run evs0 World_initial in
  s_Instance w = Some ts ->
  m_Running ts = false ->
  no_join evs ->
  (forall i, i < length (m_Workers ts) -> 4 <= worker_steps i evs) ->
  (exists ts',
     s_Instance (run evs w) = Some ts'
     /\ length (m_Workers ts') = length (m_Workers ts)
     /\ Forall (fun wk => pc wk = Exited) (m_Workers ts'))
  /\ s_Instance (Shutdown_join (run evs w)) = None.
Proof.
  intros w Hts Hrun Hnj Hsteps.
  destruct (run_towards_exit evs w ts Hts Hrun
              (run_well_shaped evs0 World_initial I) Hnj)
    as (ts' & Hts' & Hrun' & Hlen' & Hall').
  assert (Forall (fun wk => pc wk = Exited) (m_Workers ts')) as Hexited.
  { apply Forall_lookup. intros i wk' Hi.
    destruct (Hall' i wk' Hi) as (wk & Hiw & Hle).
    pose proof (lookup_lt_Some _ _ _ Hiw) as Hlt.
    specialize (Hsteps i Hlt). pose proof (steps_to_exit_bound (pc wk)).
    destruct (pc wk'); simpl in Hle; (done || lia). }
  split; [by exists ts'|].
  unfold Shutdown_join. rewrite Hts', Hrun'. cbn [negb andb].
  assert (all_joined ts' = true) as ->; [|done].
  unfold all_joined. apply forallb_forall. intros wk Hwk%list_elem_of_In.
  rewrite Forall_forall in Hexited. unfold joinable_done.
  by rewrite (Hexited wk Hwk).
Qed.

Lemma Shutdown_completes_witness :
  let ch := uncontended (fun k => k) in
  let evs0 := [EvInitialize 2 0; EvWorker 0 ch; EvWorker 0 ch;
               EvSchedule (Some (UserFn 1)) Normal 0; EvShutdownSignal] in
  let evs := [EvWorker 0 ch; EvWorker 1 ch; EvSchedule None Low 3;
              EvWorker 0 ch; EvWorker 1 ch; EvWorker 0 ch; EvWorker 1 ch;
              EvWorker 1 ch; EvWorker 0 ch] in
  no_join evs
  /\ s_Instance (Shutdown_join (run evs (run evs0 World_initial))) = None.
Proof.
  intros ch evs0 evs.
  assert (no_join evs) as Hnj by (repeat constructor).
  split; [exact Hnj|].
  assert (exists ts, s_Instance (run evs0 World_initial) = Some ts
                     /\ m_Running ts = false
                     /\ length (m_Workers ts) = 2) as (ts & Hts & Hrun & Hlen).
  { eexists. split; [reflexivity|]. split; reflexivity. }
  refine (proj2 (Shutdown_completes evs0 evs ts Hts Hrun Hnj _)).
  intros i Hi. rewrite Hlen in Hi.
  destruct i as [|[|i]]; [vm_compute; lia | vm_compute; lia | lia].
Defined.

(** ** The counters *)

Lemma Int32_wrap_range (z : Z) : (- 2 ^ 31 <= Int32.wrap z < 2 ^ 31)%Z.
Proof.
  unfold Int32.wrap.
  pose proof (Z.mod_pos_bound (z + 2 ^ 31) (2 ^ 32) ltac:(lia)). lia.
Qed.

Lemma Int32_wrap_inc_dec (c : Z) :
  (- 2 ^ 31 <= c < 2 ^ 31)%Z ->
  Int32.wrap (Int32.wrap (c + 1) - 1) = c
  /\ Int32.wrap (Int32.wrap (c - 1) + 1) = c.
Proof.
  intros Hc. unfold Int32.wrap.
  split.
  - replace ((c + 1 + 2 ^ 31) mod 2 ^ 32 - 2 ^ 31 - 1 + 2 ^ 31)%Z
      with ((c + 1 + 2 ^ 31) mod 2 ^ 32 - 1)%Z by lia.
    rewrite Zminus_mod_idemp_l.
    replace (c + 1 + 2 ^ 31 - 1)%Z with (c + 2 ^ 31)%Z by lia.
    rewrite Z.mod_small; lia.
  - replace ((c - 1 + 2 ^ 31) mod 2 ^ 32 - 2 ^ 31 + 1 + 2 ^ 31)%Z
      with ((c - 1 + 2 ^ 31) mod 2 ^ 32 + 1)%Z by lia.
    rewrite Zplus_mod_idemp_l.
    replace (c - 1 + 2 ^ 31 + 1)%Z with (c + 2 ^ 31)%Z by lia.
    rewrite Z.mod_small; lia.
Qed.

(** X10.  On a store of 32-bit counters, [Decrement] undoes [Increment] and
    [Increment] undoes [Decrement], for every handle and every counter
    value, the two ends of the [int] range included (where the counter
    wraps); the other counters are never touched, and both keep every
    counter within the [int] range. *)
Theorem Increment_Decrement_cancel (h : TaskHandle) (hp : Heap) :
  Forall (fun c => (- 2 ^ 31 <= c < 2 ^ 31)%Z) hp ->
  Decrement h (Increment h hp) = hp
  /\ Increment h (Decrement h hp) = hp
  /\ Forall (fun c => (- 2 ^ 31 <= c < 2 ^ 31)%Z) (Increment h hp)
  /\ Forall (fun c => (- 2 ^ 31 <= c < 2 ^ 31)%Z) (Decrement h hp)
  /\ forall l, m_Counter h <> Some l ->
       counter_load (Increment h hp) l = counter_load hp l
       /\ counter_load (Decrement h hp) l = counter_load hp l.
Proof.
  intros Hrange. unfold Increment, Decrement.
  destruct (m_Counter h) as [l0|]; [|by split_and!].
  split_and!.
  - apply list_eq. intros j.
    rewrite !list_lookup_alter. repeat case_decide; subst; try done.
    destruct (hp !! j) as [c|] eqn:Hc; [|done]. simpl. f_equal.
    apply Int32_wrap_inc_dec.
    rewrite Forall_lookup in Hrange. by apply (Hrange j).
  - apply list_eq. intros j.
    rewrite !list_lookup_alter. repeat case_decide; subst; try done.
    destruct (hp !! j) as [c|] eqn:Hc; [|done]. simpl. f_equal.
    apply Int32_wrap_inc_dec.
    rewrite Forall_lookup in Hrange. by apply (Hrange j).
  - apply Forall_alter; [done|]. intros c _ _. apply Int32_wrap_range.
  - apply Forall_alter; [done|]. intros c _ _. apply Int32_wrap_range.
  - intros l Hl. split; apply counter_load_alter_ne; congruence.
Qed.

Lemma Increment_Decrement_cancel_witness :
  let hp : Heap := [0%Z; (2 ^ 31 - 1)%Z; (- 2 ^ 31)%Z] in
  Forall (fun c => (- 2 ^ 31 <= c < 2 ^ 31)%Z) hp
  /\ Decrement (mkTaskHandle (Some 1)) (Increment (mkTaskHandle (Some 1)) hp)
     = hp.
Proof.
  intros hp.
  assert (Forall (fun c => (- 2 ^ 31 <= c < 2 ^ 31)%Z) hp) as Hr.
  { repeat constructor; lia. }
  split; [exact Hr|].
  exact (proj1 (Increment_Decrement_cancel (mkTaskHandle (Some 1)) hp Hr)).
Defined.

(** ** Batches of submissions *)




(** ** ParallelFor within 32 bits *)



(** X13.  When [GetWorkerCount] returns 0 (there is no scheduler),
    [Execute] makes the calls itself:
    for every count it calls [fn(0)], ..., [fn(count - 1)], each index once
    and in ascending order, submits nothing, allocates nothing and returns
    no handle to wait for, whatever batch size was asked for; with
    [count = 0] it does nothing at all. *)
Theorem Execute_serial_fallback (count batchSize : Z) (draw : nat -> nat)
    (w : World) :
  (0 <= count)%Z ->
  GetWorkerCount w = 0%Z ->
  let w' := snd (ParallelFor.Execute count batchSize draw w) in
  fst (ParallelFor.Execute count batchSize draw w) = []
  /\ (exists calls,
        invoked w' = invoked w ++ calls
        /\ Z.of_nat (length calls) = count
        /\ forall k : nat, (Z.of_nat k < count)%Z ->
             calls !! k = Some (CallIndex (Z.of_nat k)))
  /\ submitted w' = submitted w
  /\ completed w' = completed w
  /\ heap w' = heap w
  /\ s_Instance w' = s_Instance w
  /\ (count = 0%Z -> w' = w).
Proof.
  intros Hc Hw w'.
  destruct (Execute_within_range count batchSize draw w) as (Hzero & Hser & _).
  destruct (decide (count = 0%Z)) as [->|Hne].
  - unfold w'. rewrite (Hzero eq_refl). cbn [fst snd].
    split_and!; try done. exists []. rewrite app_nil_r.
    split_and!; [done | done | intros k Hk; lia].
  - unfold w'. rewrite Hser by (done || lia). cbn [fst snd invoked submitted
      completed heap s_Instance].
    split_and!; try done.
    exists (CallIndex <$> index_range 0 count). split_and!; [done | |].
    + unfold index_range. rewrite !length_fmap, length_seq. lia.
    + intros k Hk. unfold index_range.
      rewrite !list_lookup_fmap, lookup_seq_lt by lia. simpl. do 2 f_equal.
Qed.

Lemma Execute_serial_fallback_witness :
  (0 <= 50)%Z
  /\ GetWorkerCount World_initial = 0%Z
  /\ fst (ParallelFor.Execute 50 7 (fun k => k) World_initial) = [].
Proof.
  assert (0 <= 50)%Z as Hc by lia.
  split; [exact Hc|]. split; [reflexivity|].
  exact (proj1 (Execute_serial_fallback 50 7 (fun k => k) World_initial
                  Hc eq_refl)).
Defined.

(** X14.  The default batch size ([batchSize = 0]) bounds the number of
    tasks: for [count] up to 3435973836 and a worker count whose fourfold
    fits 32 bits, the batch size is [max(1, count / (4 * workerCount))],
    the arithmetic does not wrap, and the number of batches lies between
    [min(count, 4 * workerCount)] and [8 * workerCount]. *)
Theorem default_batch_count_bounded (count workerCount : Z) :
  (0 < count <= 3435973836)%Z ->
  (0 < workerCount)%Z ->
  (workerCount * 4 < UInt32.modulus)%Z ->
  let size := ParallelFor.effective_batch_size count workerCount 0 in
  let batches := ParallelFor.num_batches count size in
  size = Z.max 1 (count / (workerCount * 4))
  /\ (1 <= size <= count)%Z
  /\ (count + size - 1 < UInt32.modulus)%Z
  /\ batches = ParallelFor.ceil_div count size
  /\ (Z.min count (4 * workerCount) <= batches <= 8 * workerCount)%Z.
Proof.
  intros Hc Hw Hw4 size batches.
  assert (size = Z.max 1 (count / (workerCount * 4))) as Hsize.
  { by apply effective_batch_size_default. }
  set (q := (count / (workerCount * 4))%Z) in *.
  assert (workerCount * 4 * q <= count < workerCount * 4 * (q + 1))%Z as Hq.
  { pose proof (Z.div_mod count (workerCount * 4) ltac:(lia)) as Hdm.
    pose proof (Z.mod_pos_bound count (workerCount * 4) ltac:(lia)) as Hm.
    fold q in Hdm. nia. }
  assert (0 <= q)%Z as Hq0 by (apply Z.div_pos; lia).
  assert (1 <= size <= count)%Z as Hrange by nia.
  assert (4 * size <= Z.max 4 count)%Z as Hquarter by nia.
  assert (count + size - 1 < UInt32.modulus)%Z as Hwrap.
  { unfold UInt32.modulus. lia. }
  assert (batches = ParallelFor.ceil_div count size) as Hb.
  { apply num_batches_no_wrap; lia. }
  split_and!; [done | lia | lia | done | done | |].
  - rewrite Hb.
    destruct (ceil_div_bounds count size) as [Hlo Hhi]; [lia..|].
    destruct (decide (q = 0%Z)) as [Hz|Hnz]; [|nia].
    assert (size = 1%Z) as -> by lia. nia.
  - rewrite Hb.
    destruct (ceil_div_bounds count size) as [Hlo Hhi]; [lia..|].
    destruct (decide (q = 0%Z)) as [Hz|Hnz].
    + assert (size = 1%Z) as Hs1 by lia. rewrite Hs1 in *. nia.
    + assert (size = q) as Hsq by lia. rewrite Hsq in *. nia.
Qed.

Lemma default_batch_count_bounded_witness :
  (0 < 1000 <= 3435973836)%Z
  /\ (0 < 4)%Z
  /\ (4 * 4 < UInt32.modulus)%Z
  /\ (Z.min 1000 (4 * 4)
      <= ParallelFor.num_batches 1000
           (ParallelFor.effective_batch_size 1000 4 0)
      <= 8 * 4)%Z.
Proof.
  assert (0 < 1000 <= 3435973836)%Z as H1 by lia.
  assert (0 < 4)%Z as H2 by lia.
  assert (4 * 4 < UInt32.modulus)%Z as H3 by (unfold UInt32.modulus; lia).
  split; [exact H1|]. split; [exact H2|]. split; [exact H3|].
  exact (proj2 (proj2 (proj2 (proj2
           (default_batch_count_bounded 1000 4 H1 H2 H3))))).
Defined.

(** ** How the queue operations compose *)

(** X15.  Popping right after a push (the lock being free): on an empty
    queue the pop returns the task just pushed and the queues are as before
    the push; so it is when the task has strictly higher priority than the
    front; otherwise the pop returns the old front and the new task waits
    among the rest, behind every task of at least its priority. *)
Theorem TryPopTask_after_PushTask (t : Task) (i : nat) (queues : list Queue)
    (q : Queue) :
  queues !! i = Some q ->
  TryPopTask true i (PushTask t i queues)
  = match q with
    | [] => (Some t, queues)
    | front :: rest =>
        if (priority_value (Priority t) <=? priority_value (Priority front))%Z
        then (Some front, <[i := insert_by_priority t rest]> queues)
        else (Some t, queues)
    end.
Proof.
  intros Hq. pose proof (lookup_lt_Some _ _ _ Hq) as Hi.
  rewrite PushTask_cases, Hq. unfold TryPopTask.
  rewrite list_lookup_insert_eq by done.
  destruct q as [|front rest]; cbn [insert_by_priority].
  - rewrite list_insert_insert_eq. by rewrite list_insert_id.
  - destruct (_ <=? _)%Z.
    + by rewrite list_insert_insert_eq.
    + rewrite list_insert_insert_eq. by rewrite list_insert_id.
Qed.

Lemma TryPopTask_after_PushTask_witness :
  let a := mkTask (Some (UserFn 1)) Normal (mkTaskHandle (Some 0)) in
  let b := mkTask (Some (UserFn 2)) High (mkTaskHandle (Some 1)) in
  [[]; [a]] !! 1 = Some [a]
  /\ TryPopTask true 1 (PushTask b 1 [[]; [a]]) = (Some b, [[]; [a]]).
Proof.
  intros a b. split; [reflexivity|].
  exact (TryPopTask_after_PushTask b 1 [[]; [a]] [a] eq_refl).
Defined.

(** X16.  The queue operations neither lose nor duplicate tasks, and never
    change the number of queues.  [PushTask] on an existing queue adds
    exactly the task given; [TryPopTask] and [TryStealTask], when they
    return a task, remove exactly that task, and otherwise leave the queues
    as they are; [TryPopTask] without the lock, and both on empty queues
    only, return nothing. *)
Theorem queue_operations_conserve_tasks (t : Task) (i : nat)
    (owns_lock : bool) (draw : nat -> nat) (owns_locks : nat -> bool)
    (queues : list Queue) :
  (i < length queues -> concat (PushTask t i queues) ≡ₚ t :: concat queues)
  /\ length (PushTask t i queues) = length queues
  /\ (forall j, j <> i -> PushTask t i queues !! j = queues !! j)
  /\ match TryPopTask owns_lock i queues with
     | (Some popped, queues') =>
         concat queues ≡ₚ popped :: concat queues'
         /\ length queues' = length queues
         /\ owns_lock = true
     | (None, queues') => queues' = queues
     end
  /\ match TryStealTask draw owns_locks queues with
     | (Some stolen, queues') =>
         concat queues ≡ₚ stolen :: concat queues'
         /\ length queues' = length queues
     | (None, queues') => queues' = queues
     end
  /\ (Forall (fun q => q = []) queues ->
      fst (TryPopTask owns_lock i queues) = None
      /\ fst (TryStealTask draw owns_locks queues) = None).
Proof.
  split_and!.
  - intros [q Hq]%lookup_lt_is_Some. rewrite PushTask_cases, Hq.
    destruct (concat_insert_perm _ _ _ Hq) as (others & Hold & Hnew).
    rewrite Hnew, Hold, insert_by_priority_perm. done.
  - unfold PushTask. apply length_alter.
  - intros j Hj. unfold PushTask. by apply list_lookup_alter_ne.
  - destruct (TryPopTask_cases owns_lock i queues)
      as [-> | (front & rest & Hown & Hq & ->)]; [done|].
    destruct (concat_insert_perm _ _ _ Hq) as (others & Hold & Hnew).
    split_and!; [by rewrite Hnew, Hold | apply length_insert | done].
  - destruct (TryStealTask_cases draw owns_locks queues)
      as [[-> _] | (k & q & back & _ & _ & _ & Hq & ->)]; [done|].
    destruct (concat_insert_perm _ _ _ Hq) as (others & Hold & Hnew).
    split; [|apply length_insert].
    rewrite Hnew, Hold. solve_Permutation.
  - intros Hempty. rewrite Forall_lookup in Hempty. split.
    + destruct (TryPopTask_cases owns_lock i queues)
        as [-> | (front & rest & _ & Hq & _)]; [done|].
      by specialize (Hempty _ _ Hq).
    + destruct (TryStealTask_cases draw owns_locks queues)
        as [[-> _] | (k & q & back & _ & _ & _ & Hq & _)]; [done|].
      specialize (Hempty _ _ Hq). by destruct q.
Qed.

(** ** What a worker pops *)

Lemma submitted_in_handle_order (evs : list Event) :
  forall w,
    Consistent w ->
    StronglySorted lt (handle_age <$> submitted w) ->
    StronglySorted lt (handle_age <$> submitted (run evs w)).
Proof.
  induction evs as [|ev evs IH]; intros w Hc Hs; [done|].
  rewrite run_cons. pose proof (step_effect w ev) as Heff.
  apply IH; [by eapply Effect_consistent|].
  destruct Heff as [_ -> _ _ _ | t Ht _ -> _ _ _ | t _ _ -> _ _]; [done | | done].
  rewrite fmap_app. apply StronglySorted_app. split_and!; [| done | repeat constructor].
  intros x y [u [-> Hu]]%list_elem_of_fmap Hy.
  rewrite list_fmap_singleton in Hy. apply list_elem_of_singleton in Hy as ->.
  destruct (submitted_allocated w Hc u Hu) as (l & Hl & Hlt).
  unfold handle_age. by rewrite Hl, Ht.
Qed.

(** X17.  In every state the scheduler reaches, the counters' addresses
    number the submitted tasks in the order of their submission, every
    queue is sorted by descending priority and then by submission order,
    and so a worker that pops its queue gets a task of the highest priority
    in that queue, the earliest submitted among those. *)
Theorem worker_pops_highest_priority_earliest (evs : list Event)
    (ts : TaskSystem) :
  let w := run evs World_initial in
  s_Instance w = Some ts ->
  StronglySorted lt (handle_age <$> submitted w)
  /\ Forall (queue_sorted handle_age) (m_Queues ts)
  /\ forall i popped queues',
       TryPopTask true i (m_Queues ts) = (Some popped, queues') ->
       exists rest,
         m_Queues ts !! i = Some (popped :: rest)
         /\ queues' = <[i := rest]> (m_Queues ts)
         /\ forall t, t ∈ rest ->
              (priority_value (Priority t)
               <= priority_value (Priority popped))%Z
              /\ (Priority t = Priority popped ->
                  handle_age popped < handle_age t).
Proof.
  intros w Hts.
  pose proof (scheduler_queues_sorted evs ts Hts) as Hsorted.
  split_and!.
  - apply submitted_in_handle_order; [apply Consistent_initial | constructor].
  - eapply Forall_impl; [exact Hsorted|]. by intros q [? _].
  - intros i popped queues' Hpop.
    destruct (TryPopTask_cases true i (m_Queues ts))
      as [Hnone | (front & rest & _ & Hq & Hsome)]; [congruence|].
    rewrite Hsome in Hpop. injection Hpop as <- <-.
    exists rest. split_and!; [done | done |].
    rewrite Forall_lookup in Hsorted.
    destruct (Hsorted i _ Hq) as [_ Hfront]. by apply (Hfront front rest).
Qed.

Lemma worker_pops_highest_priority_earliest_witness :
  let evs := [EvInitialize 1 0; EvSchedule (Some (UserFn 1)) Low 0;
              EvSchedule (Some (UserFn 2)) High 1;
              EvSchedule (Some (UserFn 3)) High 2] in
  exists ts,
    s_Instance (run evs World_initial) = Some ts
    /\ Forall (queue_sorted handle_age) (m_Queues ts).
Proof.
  intros evs. eexists. split; [reflexivity|].
  exact (proj1 (proj2 (worker_pops_highest_priority_earliest evs _ eq_refl))).
Defined.

(** ** Fork and join *)






(** ** What still runs during a shutdown *)

Lemma sum_list_with_insert {A} (f : A -> nat) (l : list A) (i : nat) (x y : A) :
  l !! i = Some x ->
  sum_list_with f (<[i := y]> l) + f x = sum_list_with f l + f y.
Proof.
  revert i. induction l as [|a l IH]; intros [|i] Hi; simplify_eq/=; [lia|].
  specialize (IH i Hi). lia.
Qed.

Lemma sum_list_with_le_length {A} (f : A -> nat) (l : list A) :
  (forall x, f x <= 1) -> sum_list_with f l <= length l.
Proof.
  intros Hf. induction l as [|a l IH]; simpl; [lia|].
  specialize (Hf a). lia.
Qed.

Lemma step_after_signal_runs_within_reach (w : World) (ts : TaskSystem)
    (ev : Event) :
  s_Instance w = Some ts -> m_Running ts = false -> well_shaped w ->
  ev <> EvShutdownJoin ->
  exists ts',
    s_Instance (step w ev) = Some ts'
    /\ length (completed (step w ev)) + tasks_in_reach ts'
       <= length (completed w) + tasks_in_reach ts.
Proof.
  intros Hts Hrun Hshape Hev.
  destruct ev as [numThreads hc | | | function priority draw | slot ch];
    cbn [step]; [| | done | |].
  - unfold Initialize. rewrite Hts. by exists ts.
  - unfold Shutdown_signal. rewrite Hts. eexists. split; [reflexivity|]. done.
  - destruct (Schedule_initialized function priority draw ts w Hts)
      as (ts' & -> & Hw' & _). cbn [snd s_Instance completed].
    exists ts'. split; [done|]. unfold tasks_in_reach. by rewrite Hw'.
  - rewrite Hts.
    destruct (m_Workers ts !! slot) as [wk|] eqn:Hwk; [|by exists ts].
    assert (pc wk = AtExecute -> is_Some (task wk)) as Htask.
    { unfold well_shaped in Hshape. rewrite Hts in Hshape.
      destruct Hshape as (_ & _ & _ & H4).
      destruct (H4 slot wk Hwk) as [_ [Hp|?]]; [congruence | done]. }
    assert (forall wk1,
              tasks_in_reach (set_worker slot wk1 ts) + may_still_run (pc wk)
              = tasks_in_reach ts + may_still_run (pc wk1)) as Hmove.
    { intros wk1. unfold tasks_in_reach. cbn [set_worker m_Workers].
      apply (sum_list_with_insert (fun wk => may_still_run (pc wk)) _ _ _ _ Hwk). }
    unfold worker_step. destruct (pc wk) eqn:Hpc.
    + eexists. split; [reflexivity|]. cbn [completed].
      match goal with |- context [set_worker slot ?wk1 ts] =>
        specialize (Hmove wk1) end. simpl in *. lia.
    + eexists. split; [reflexivity|]. cbn [completed set_instance].
      match goal with |- context [set_worker slot ?wk1 ts] =>
        specialize (Hmove wk1) end. rewrite Hrun in *. simpl in *. lia.
    + destruct (TryPopTask (own_lock ch) (threadIndex wk) (m_Queues ts))
        as [[t|] queues]; (eexists; split; [reflexivity|]);
        cbn [completed set_instance];
        match goal with |- context [set_worker slot ?wk1 _] =>
          specialize (Hmove wk1) end;
        unfold tasks_in_reach in *; simpl in *; lia.
    + destruct (TryStealTask (steal_draw ch) (steal_lock ch) (m_Queues ts))
        as [[t|] queues]; (eexists; split; [reflexivity|]);
        cbn [completed set_instance];
        match goal with |- context [set_worker slot ?wk1 _] =>
          specialize (Hmove wk1) end;
        unfold tasks_in_reach in *; simpl in *; lia.
    + destruct (Htask eq_refl) as [t ->].
      eexists. split; [reflexivity|]. cbn [completed].
      rewrite length_app. cbn [length].
      match goal with |- context [set_worker slot ?wk1 _] =>
        specialize (Hmove wk1) end.
      unfold tasks_in_reach in *. simpl in *. lia.
    + by exists ts.
Qed.

Lemma run_after_signal_runs_within_reach (evs : list Event) :
  forall (w : World) (ts : TaskSystem),
    s_Instance w = Some ts -> m_Running ts = false -> well_shaped w ->
    no_join evs ->
    length (completed (run evs w)) <= length (completed w) + tasks_in_reach ts.
Proof.
  induction evs as [|ev evs IH]; intros w ts Hts Hrun Hshape Hnj;
    [simpl; lia|].
  apply Forall_cons in Hnj as [Hev Hnj].
  assert (ev <> EvShutdownJoin) as Hne by (by intros ->).
  destruct (step_towards_exit w ts ev Hts Hrun Hshape Hne)
    as (ts1 & Hts1 & Hrun1 & _).
  destruct (step_after_signal_runs_within_reach w ts ev Hts Hrun Hshape Hne)
    as (ts2 & Hts2 & Hle).
  assert (ts2 = ts1) as -> by congruence.
  specialize (IH (step w ev) ts1 Hts1 Hrun1 (step_well_shaped w ev Hshape) Hnj).
  rewrite run_cons. lia.
Qed.

(** X19.  Once [Shutdown] has cleared the running flag, each worker runs at
    most one more task: from then until the joins return, whatever else
    happens, the number of tasks run grows by at most the number of workers
    that are between their test of the flag and the end of their iteration,
    hence by at most the number of workers. *)
Theorem at_most_one_more_task_per_worker (evs0 evs : list Event)
    (ts : TaskSystem) :
  let w := run evs0 World_initial in
  s_Instance w = Some ts ->
  m_Running ts = false ->
  no_join evs ->
  length (completed (run evs w)) <= length (completed w) + tasks_in_reach ts
  /\ tasks_in_reach ts <= length (m_Workers ts).
Proof.
  intros w Hts Hrun Hnj. split.
  - apply run_after_signal_runs_within_reach; [done | done | | done].
    apply run_well_shaped. exact I.
  - apply sum_list_with_le_length. intros wk. destruct (pc wk); simpl; lia.
Qed.

Lemma at_most_one_more_task_per_worker_witness :
  let ch := uncontended (fun k => k) in
  let evs0 := [EvInitialize 1 0; EvWorker 0 ch; EvWorker 0 ch;
               EvSchedule (Some (UserFn 1)) Normal 0;
               EvSchedule (Some (UserFn 2)) Normal 0; EvShutdownSignal] in
  let evs := replicate 6 (EvWorker 0 ch) in
  no_join evs
  /\ length (completed (run evs (run evs0 World_initial))) <= 0 + 1.
Proof.
  intros ch evs0 evs.
  assert (no_join evs) as Hnj by (repeat constructor).
  split; [exact Hnj|].
  assert (exists ts, s_Instance (run evs0 World_initial) = Some ts
                     /\ m_Running ts = false
                     /\ tasks_in_reach ts = 1) as (ts & Hts & Hrun & Hreach).
  { eexists. split; [reflexivity|]. split; reflexivity. }
  pose proof (proj1 (at_most_one_more_task_per_worker evs0 evs ts Hts Hrun Hnj))
    as Hle.
  rewrite Hreach in Hle. exact Hle.
Defined.
